(** * higo/storage: connection lifecycle, reconnect, decorators, manager

    A shallow embedding of the Go package [storage] (and of the [Connect]
    methods of the storage and mq adapters built on [Base]) together with
    the properties its specification states about them.

    Conventions.
    - A Go [error] value is [option error]: [None] is [nil].
    - A Go [string] is a [string] of bytes.
    - A Go [int] is a [Z] kept inside the 64-bit two's-complement range,
      with the wrap-around of [+] written out ([wrap_int]).
    - A [time.Duration] is its [int64] count of nanoseconds.
    - Calls a decorator makes on the resource it wraps are recorded in a
      trace that the embedded function returns next to its result. *)

From Stdlib Require Import ZArith Ascii String DecimalString Floats.
From stdpp Require Import gmap strings list.

Local Open Scope string_scope.
Local Open Scope Z_scope.

(** ** Errors ([errors.New], [fmt.Errorf]) *)

(** The two error shapes the package builds: [*errors.errorString] (also what
    [fmt.Errorf] returns when no operand was wrapped) and [*fmt.wrapError]. *)
Inductive error : Type :=
| errorString (s : string)
| wrapError (msg : string) (err : error).

Definition Error (e : error) : string :=
  match e with
  | errorString s => s
  | wrapError msg _ => msg
  end.

Definition errors_Unwrap (e : error) : option error :=
  match e with
  | errorString _ => None
  | wrapError _ err => Some err
  end.

(** [%d] of an [int]. *)
Definition itoa (n : Z) : string := NilZero.string_of_int (Z.to_int n).

(** [fmt.Errorf(prefix + "%w", err)].  A nil operand is not an error, so the
    verb prints as a bad verb and nothing is wrapped. *)
Definition Errorf_w (prefix : string) (err : option error) : error :=
  match err with
  | Some e => wrapError (prefix ++ Error e) e
  | None => errorString (prefix ++ "%!w(<nil>)")
  end.

(** ** Go's [int] *)

Definition int_bits : Z := 64.
Definition int_min : Z := - 2 ^ (int_bits - 1).
Definition int_max : Z := 2 ^ (int_bits - 1) - 1.

Definition wrap_int (z : Z) : Z :=
  (z + 2 ^ (int_bits - 1)) mod 2 ^ int_bits - 2 ^ (int_bits - 1).

Definition is_int (z : Z) : Prop := int_min <= z <= int_max.

(** ** [strings.ToLower], [strings.Contains], [isConnectionError] *)

Definition is_upper (c : ascii) : bool :=
  let n := N_of_ascii c in ((65 <=? n) && (n <=? 90))%N.

Definition lower_byte (c : ascii) : ascii :=
  if is_upper c then ascii_of_N (N_of_ascii c + 32) else c.

Fixpoint map_bytes (f : ascii -> ascii) (s : string) : string :=
  match s with
  | EmptyString => EmptyString
  | String c s' => String (f c) (map_bytes f s')
  end.

(** Every byte is below [utf8.RuneSelf]. *)
Fixpoint isASCII (s : string) : bool :=
  match s with
  | EmptyString => true
  | String c s' => (N_of_ascii c <? 128)%N && isASCII s'
  end.

Fixpoint has_prefix (s p : string) {struct p} : bool :=
  match p, s with
  | EmptyString, _ => true
  | String _ _, EmptyString => false
  | String a p', String b s' => if Ascii.eqb a b then has_prefix s' p' else false
  end.

(** [strings.Contains s substr]: [substr] starts at some offset of [s]. *)
Fixpoint Contains (s substr : string) : bool :=
  has_prefix s substr ||
  match s with
  | EmptyString => false
  | String _ s' => Contains s' substr
  end.

Definition keywords : list string :=
  [ "connection refused"; "connection reset"; "broken pipe";
    "no such host"; "timeout"; "eof"; "closed" ].

Section Classifier.

(** [strings.Map(unicode.ToLower, s)], the path [strings.ToLower] takes for
    text that is not pure ASCII; its tables belong to the Go runtime. *)
Variable unicode_ToLower : string -> string.

Definition ToLower (s : string) : string :=
  if isASCII s then map_bytes lower_byte s else unicode_ToLower s.

Definition isConnectionError (err : option error) : bool :=
  match err with
  | None => false
  | Some e =>
      let msg := ToLower (Error e) in
      existsb (fun kw => Contains msg kw) keywords
  end.

End Classifier.

(** The specification's reading of the classifier: some substring of the
    message equals the keyword up to the case of ASCII letters. *)
Definition contains_nocase (msg kw : string) : Prop :=
  exists pre mid post,
    msg = pre ++ mid ++ post /\ map_bytes lower_byte mid = map_bytes lower_byte kw.

(** ** [State] and [Base] (package storage; package mq has the same) *)

Inductive State : Type :=
| StateDisconnected
| StateConnecting
| StateConnected
| StateDisconnecting.

#[global] Instance State_eq_dec : EqDecision State.
Proof. solve_decision. Defined.

(** [State.String]. *)
Definition State_String (s : State) : string :=
  match s with
  | StateDisconnected => "disconnected"
  | StateConnecting => "connecting"
  | StateConnected => "connected"
  | StateDisconnecting => "disconnecting"
  end.

(** [Type] is an open string tag. *)
Definition Kind : Type := string.

Record Base : Type := mkBase { name : string; typ : Kind; state : State }.

Definition NewBase (n : string) (t : Kind) : Base :=
  {| name := n; typ := t; state := StateDisconnected |}.

Definition SetState (s : State) (b : Base) : Base :=
  {| name := name b; typ := typ b; state := s |}.

(** [atomic.Int32.CompareAndSwap] on the state word. *)
Definition CompareAndSwapState (old new : State) (b : Base) : bool * Base :=
  if decide (state b = old) then (true, SetState new b) else (false, b).

(** ** The adapters' [Connect]

    An adapter embeds a [*Base] and keeps driver handles in its fields.  What
    a driver call returns is given by the environment [IOEnv] (the network is
    not part of the program).  Every call that opens, sets up, probes or
    closes a driver handle and every access to the state word is recorded, in
    order; filling in option structs is not. *)

Definition Handle : Type := string.

Record Client : Type := mkClient { base : Base; fields : gmap string Handle }.

Definition IOEnv : Type := string -> option error.

Inductive ConnEvent : Type :=
| EvCAS (old new : State) (swapped : bool)
| EvSetState (s : State)
| EvIO (call : string) (res : option error)
| EvCall (call : string).

Definition Conn (A : Type) : Type :=
  Client -> list ConnEvent -> A * Client * list ConnEvent.

Definition ret {A} (a : A) : Conn A := fun c tr => (a, c, tr).

Definition bind {A B} (m : Conn A) (k : A -> Conn B) : Conn B :=
  fun c tr => let '(a, c', tr') := m c tr in k a c' tr'.

Declare Scope conn_scope.
Delimit Scope conn_scope with conn.
Notation "x <- m ;; k" := (bind m (fun x => k))
  (at level 100, m at next level, right associativity) : conn_scope.
Notation "m ;; k" := (bind m (fun _ => k))
  (at level 100, right associativity) : conn_scope.

(** [s.CompareAndSwapState(old, new)] *)
Definition cas (old new : State) : Conn bool :=
  fun c tr =>
    let '(ok, b) := CompareAndSwapState old new (base c) in
    (ok, {| base := b; fields := fields c |}, (tr ++ [EvCAS old new ok])%list).

(** [s.SetState(st)] *)
Definition set_state (st : State) : Conn unit :=
  fun c tr =>
    (tt, {| base := SetState st (base c); fields := fields c |}, (tr ++ [EvSetState st])%list).

(** A driver call that can fail. *)
Definition io (env : IOEnv) (call : string) : Conn (option error) :=
  fun c tr => (env call, c, (tr ++ [EvIO call (env call)])%list).

(** A driver call with no error result, or whose result the code discards. *)
Definition call_ (call : string) : Conn unit :=
  fun c tr => (tt, c, (tr ++ [EvCall call])%list).

(** [s.field = handle] *)
Definition store (field : string) (h : Handle) : Conn unit :=
  fun c tr => (tt, {| base := base c; fields := <[field := h]> (fields c) |}, tr).

Definition when (b : bool) (m : Conn unit) : Conn unit :=
  if b then m else ret tt.

(** [s.SetState(StateDisconnected); return fmt.Errorf(msg + ": %w", err)] *)
Definition fail_w (msg : string) (e : error) : Conn (option error) :=
  (set_state StateDisconnected ;;
   ret (Some (Errorf_w (msg ++ ": ") (Some e))))%conn.

Definition run {A} (m : Conn A) (c : Client) : A * Client * list ConnEvent :=
  m c [].

(** *** storage/redis *)

Record redis_Config : Type := { redis_Tracer : bool }.

Definition redis_Connect (cfg : redis_Config) (env : IOEnv) : Conn (option error) :=
  (swapped <- cas StateDisconnected StateConnecting ;;
   if negb swapped then ret (Some (errorString "redis: invalid state for connect")) else
   call_ "redis.NewClient" ;;
   r <- (if redis_Tracer cfg then io env "redisotel.InstrumentTracing" else ret None) ;;
   match r with
   | Some err => fail_w "redis: setup tracing failed" err
   | None =>
       r <- io env "client.Ping" ;;
       match r with
       | Some err => fail_w "redis: ping failed" err
       | None =>
           store "client" "redis.NewClient" ;;
           set_state StateConnected ;;
           ret None
       end
   end)%conn.

(** *** storage/mongodb *)

Definition mongodb_Connect (env : IOEnv) : Conn (option error) :=
  (swapped <- cas StateDisconnected StateConnecting ;;
   if negb swapped then ret (Some (errorString "mongodb: invalid state for connect")) else
   r <- io env "mongo.Connect" ;;
   match r with
   | Some err => fail_w "mongodb: connect failed" err
   | None =>
       r <- io env "client.Ping" ;;
       match r with
       | Some err => fail_w "mongodb: ping failed" err
       | None =>
           store "client" "mongo.Connect" ;;
           call_ "client.Database" ;;
           store "database" "client.Database" ;;
           set_state StateConnected ;;
           ret None
       end
   end)%conn.

(** *** storage/clickhouse *)

Definition clickhouse_Connect (env : IOEnv) : Conn (option error) :=
  (swapped <- cas StateDisconnected StateConnecting ;;
   if negb swapped then ret (Some (errorString "clickhouse: invalid state for connect")) else
   r <- io env "clickhouse.Open" ;;
   match r with
   | Some err => fail_w "clickhouse: connect failed" err
   | None =>
       r <- io env "conn.Ping" ;;
       match r with
       | Some err => fail_w "clickhouse: ping failed" err
       | None =>
           store "conn" "clickhouse.Open" ;;
           set_state StateConnected ;;
           ret None
       end
   end)%conn.

(** *** storage/elasticsearch

    [res.IsError()] is read from the environment as well: [Some e] when the
    response carries an error status, [Error e] being [res.Status()]. *)

Definition elasticsearch_Connect (env : IOEnv) : Conn (option error) :=
  (swapped <- cas StateDisconnected StateConnecting ;;
   if negb swapped then ret (Some (errorString "elasticsearch: invalid state for connect")) else
   r <- io env "elasticsearch.NewClient" ;;
   match r with
   | Some err => fail_w "elasticsearch: create client failed" err
   | None =>
       r <- io env "client.Ping" ;;
       match r with
       | Some err => fail_w "elasticsearch: ping failed" err
       | None =>
           r <- io env "res.IsError" ;;
           match r with
           | Some status =>
               set_state StateDisconnected ;;
               call_ "res.Body.Close" ;;
               ret (Some (errorString ("elasticsearch: ping error: " ++ Error status)))
           | None =>
               store "client" "elasticsearch.NewClient" ;;
               set_state StateConnected ;;
               call_ "res.Body.Close" ;;
               ret None
           end
       end
   end)%conn.

(** *** storage/mysql *)

Record mysql_Config : Type :=
  { mysql_tracer : bool;
    mysql_Replicas : list string;
    mysql_MaxOpenConns : Z;
    mysql_MaxIdleConns : Z;
    mysql_ConnMaxLifetime : Z;
    mysql_ConnMaxIdleTime : Z }.

Definition mysql_Connect (cfg : mysql_Config) (env : IOEnv) : Conn (option error) :=
  (swapped <- cas StateDisconnected StateConnecting ;;
   if negb swapped then ret (Some (errorString "mysql: invalid state for connect")) else
   r <- io env "gorm.Open" ;;
   match r with
   | Some err => fail_w "mysql: connect failed" err
   | None =>
       r <- (if mysql_tracer cfg then io env "db.Use(tracing)" else ret None) ;;
       match r with
       | Some err => fail_w "mysql: setup tracing failed" err
       | None =>
           r <- (if (0 <? List.length (mysql_Replicas cfg))%nat
                 then io env "db.Use(dbresolver)" else ret None) ;;
           match r with
           | Some err => fail_w "mysql: setup dbresolver failed" err
           | None =>
               r <- io env "db.DB" ;;
               match r with
               | Some err => fail_w "mysql: get sql.DB failed" err
               | None =>
                   when (0 <? mysql_MaxOpenConns cfg)%Z (call_ "sqlDB.SetMaxOpenConns") ;;
                   when (0 <? mysql_MaxIdleConns cfg)%Z (call_ "sqlDB.SetMaxIdleConns") ;;
                   when (0 <? mysql_ConnMaxLifetime cfg)%Z (call_ "sqlDB.SetConnMaxLifetime") ;;
                   when (0 <? mysql_ConnMaxIdleTime cfg)%Z (call_ "sqlDB.SetConnMaxIdleTime") ;;
                   r <- io env "sqlDB.PingContext" ;;
                   match r with
                   | Some err => fail_w "mysql: ping failed" err
                   | None =>
                       store "db" "gorm.Open" ;;
                       set_state StateConnected ;;
                       ret None
                   end
               end
           end
       end
   end)%conn.

(** *** mq/kafka *)

Definition kafka_Connect (env : IOEnv) : Conn (option error) :=
  (swapped <- cas StateDisconnected StateConnecting ;;
   if negb swapped then ret (Some (errorString "kafka: invalid state for connect")) else
   r <- io env "sarama.NewSyncProducer" ;;
   match r with
   | Some err => fail_w "kafka: create producer failed" err
   | None =>
       store "producer" "sarama.NewSyncProducer" ;;
       r <- io env "sarama.NewAsyncProducer" ;;
       match r with
       | Some err =>
           call_ "producer.Close" ;;
           fail_w "kafka: create async producer failed" err
       | None =>
           store "asyncProducer" "sarama.NewAsyncProducer" ;;
           set_state StateConnected ;;
           ret None
       end
   end)%conn.

(** *** mq/rabbitmq *)

Record rabbitmq_Config : Type := { rabbitmq_ExchangeName : string }.

Definition rabbitmq_Connect (cfg : rabbitmq_Config) (env : IOEnv) : Conn (option error) :=
  (swapped <- cas StateDisconnected StateConnecting ;;
   if negb swapped then ret (Some (errorString "rabbitmq: invalid state for connect")) else
   r <- io env "amqp.Dial" ;;
   match r with
   | Some err => fail_w "rabbitmq: dial failed" err
   | None =>
       r <- io env "conn.Channel" ;;
       match r with
       | Some err =>
           call_ "conn.Close" ;;
           fail_w "rabbitmq: create channel failed" err
       | None =>
           r <- (if negb (String.eqb (rabbitmq_ExchangeName cfg) "")
                 then io env "channel.ExchangeDeclare" else ret None) ;;
           match r with
           | Some err =>
               call_ "channel.Close" ;;
               call_ "conn.Close" ;;
               fail_w "rabbitmq: declare exchange failed" err
           | None =>
               r <- io env "channel.Qos" ;;
               match r with
               | Some err =>
                   call_ "channel.Close" ;;
                   call_ "conn.Close" ;;
                   fail_w "rabbitmq: set qos failed" err
               | None =>
                   store "conn" "amqp.Dial" ;;
                   store "channel" "conn.Channel" ;;
                   set_state StateConnected ;;
                   ret None
               end
           end
       end
   end)%conn.

(** *** mq/memory *)

Definition memory_Connect : Conn (option error) :=
  (swapped <- cas StateDisconnected StateConnecting ;;
   if negb swapped then ret (Some (errorString "memory mq: invalid state for connect")) else
   set_state StateConnected ;;
   ret None)%conn.

(** *** All of them, behind one interface *)

Record Adapter : Type :=
  { adapter : string;
    Cfg : Type;
    Connect_of : Cfg -> IOEnv -> Conn (option error) }.

Definition adapters : list Adapter :=
  [ {| adapter := "redis"; Cfg := redis_Config; Connect_of := redis_Connect |};
    {| adapter := "mongodb"; Cfg := unit; Connect_of := fun _ => mongodb_Connect |};
    {| adapter := "clickhouse"; Cfg := unit; Connect_of := fun _ => clickhouse_Connect |};
    {| adapter := "elasticsearch"; Cfg := unit; Connect_of := fun _ => elasticsearch_Connect |};
    {| adapter := "mysql"; Cfg := mysql_Config; Connect_of := mysql_Connect |};
    {| adapter := "kafka"; Cfg := unit; Connect_of := fun _ => kafka_Connect |};
    {| adapter := "rabbitmq"; Cfg := rabbitmq_Config; Connect_of := rabbitmq_Connect |};
    {| adapter := "memory mq"; Cfg := unit; Connect_of := fun _ _ => memory_Connect |} ].

Definition is_CAS (ev : ConnEvent) : bool :=
  match ev with EvCAS _ _ _ => true | _ => false end.

Definition io_failed (ev : ConnEvent) : bool :=
  match ev with EvIO _ (Some _) => true | _ => false end.

(** What the specification asks of one adapter's [Connect], started on any
    client, under any configuration and any behaviour of the driver. *)
Definition connect_contract (A : Adapter) : Prop :=
  forall (cfg : Cfg A) (env : IOEnv) (c : Client),
    let '(res, c', tr) := run (Connect_of A cfg env) c in
    (* one compare-and-swap, Disconnected to Connecting, before anything else *)
    (exists swapped tr',
        tr = EvCAS StateDisconnected StateConnecting swapped :: tr' /\
        swapped = bool_decide (state (base c) = StateDisconnected) /\
        forallb (fun ev => negb (is_CAS ev)) tr' = true) /\
    (* not Disconnected: an invalid-state error, no driver call, nothing written *)
    (state (base c) <> StateDisconnected ->
       res = Some (errorString (adapter A ++ ": invalid state for connect")) /\
       c' = c /\
       tr = [EvCAS StateDisconnected StateConnecting false]) /\
    (* success only from Disconnected, and it ends Connected *)
    (res = None ->
       state (base c) = StateDisconnected /\ state (base c') = StateConnected) /\
    (* from Disconnected, a failed driver call is reported and the state reverted *)
    (state (base c) = StateDisconnected ->
       existsb io_failed tr = true ->
       res <> None /\ state (base c') = StateDisconnected) /\
    (* and there is no other way to fail from Disconnected *)
    (state (base c) = StateDisconnected ->
       res <> None -> existsb io_failed tr = true /\ state (base c') = StateDisconnected).

(** ** Storage values, their decorators and the builder (builder.go)

    A value of the interface [Storage] is one of the three decorator structs
    of the package, as its constructor built it and holding the [Storage] it
    wraps, or some other implementation: an adapter, identified by its
    address, with the name and type it answers. *)

Record ReconnectConfig : Type :=
  { MaxRetries : Z;
    InitialInterval : Z;
    MaxInterval : Z;
    Multiplier : float }.

Definition second : Z := 1000000000.

Definition DefaultReconnectConfig : ReconnectConfig :=
  {| MaxRetries := 5;
     InitialInterval := second;
     MaxInterval := 30 * second;
     Multiplier := 2%float |}.

(** A [trace.Tracer], by the name it was obtained under. *)
Definition Tracer : Type := string.

(** An instrument of [observability]: its metric name and label names. *)
Record Instrument : Type := { metric : string; label_names : list string }.

Record Metrics : Type :=
  { operations : Instrument;
    duration : Instrument;
    errors : Instrument }.

(** [NewMetrics(mp)]: the three instruments as they are registered. *)
Definition NewMetrics : Metrics :=
  {| operations :=
       {| metric := "storage_operations_total"; label_names := ["name"; "type"; "operation"] |};
     duration :=
       {| metric := "storage_operation_seconds"; label_names := ["name"; "type"; "operation"] |};
     errors :=
       {| metric := "storage_errors_total"; label_names := ["name"; "type"; "operation"] |} |}.

Inductive Storage : Type :=
| Concrete (addr : positive) (name : string) (typ : Kind)
| Reconnectable (storage : Storage) (config : ReconnectConfig)
| Traced (storage : Storage) (tracer : Tracer)
| Metriced (storage : Storage) (metrics : Metrics).

Definition NewReconnectable (s : Storage) (cfg : ReconnectConfig) : Storage :=
  let cfg :=
    if (Multiplier cfg <=? 0)%float
    then {| MaxRetries := MaxRetries cfg;
            InitialInterval := InitialInterval cfg;
            MaxInterval := MaxInterval cfg;
            Multiplier := 2%float |}
    else cfg in
  Reconnectable s cfg.

Definition NewTraced (s : Storage) (t : Tracer) : Storage := Traced s t.

Definition NewMetriced (s : Storage) (m : Metrics) : Storage := Metriced s m.

(** [Name()]: every decorator forwards it. *)
Fixpoint Storage_Name (s : Storage) : string :=
  match s with
  | Concrete _ n _ => n
  | Reconnectable v _ | Traced v _ | Metriced v _ => Storage_Name v
  end.

(** The method [Unwrap] of each decorator. *)
Definition Unwrap1 (s : Storage) : option Storage :=
  match s with
  | Concrete _ _ _ => None
  | Reconnectable v _ | Traced v _ | Metriced v _ => Some v
  end.

Definition is_decorator (s : Storage) : bool :=
  match s with
  | Concrete _ _ _ => false
  | _ => true
  end.

(** The package-level [Unwrap]: the type switch, repeated until the default
    case. *)
Fixpoint Unwrap (s : Storage) : Storage :=
  match s with
  | Reconnectable v _ => Unwrap v
  | Traced v _ => Unwrap v
  | Metriced v _ => Unwrap v
  | Concrete _ _ _ => s
  end.

Record Builder : Type :=
  { storage : Storage;
    reconnect : option ReconnectConfig;
    tracer : option Tracer;
    metrics : option Metrics }.

Definition NewBuilder (s : Storage) : Builder :=
  {| storage := s; reconnect := None; tracer := None; metrics := None |}.

Definition WithReconnect (cfg : ReconnectConfig) (b : Builder) : Builder :=
  {| storage := storage b; reconnect := Some cfg; tracer := tracer b; metrics := metrics b |}.

(** The tracer is an interface value and may be nil. *)
Definition WithTracing (t : option Tracer) (b : Builder) : Builder :=
  {| storage := storage b; reconnect := reconnect b; tracer := t; metrics := metrics b |}.

(** The metrics are a pointer and may be nil. *)
Definition WithMetrics (m : option Metrics) (b : Builder) : Builder :=
  {| storage := storage b; reconnect := reconnect b; tracer := tracer b; metrics := m |}.

Definition Build (b : Builder) : Storage :=
  let s := storage b in
  let s := match reconnect b with Some cfg => NewReconnectable s cfg | None => s end in
  let s := match tracer b with Some t => NewTraced s t | None => s end in
  let s := match metrics b with Some m => NewMetriced s m | None => s end in
  s.

(** A chain of modifier calls on a builder. *)
Inductive Modifier : Type :=
| ModReconnect (cfg : ReconnectConfig)
| ModTracing (t : option Tracer)
| ModMetrics (m : option Metrics).

Definition apply_modifier (b : Builder) (m : Modifier) : Builder :=
  match m with
  | ModReconnect cfg => WithReconnect cfg b
  | ModTracing t => WithTracing t b
  | ModMetrics m => WithMetrics m b
  end.

Definition chain (mods : list Modifier) (b : Builder) : Builder :=
  fold_left apply_modifier mods b.

(** The decorator layers of a value, outermost first. *)
Inductive Layer : Type := LReconnectable | LTraced | LMetriced.

Fixpoint layers (s : Storage) : list Layer :=
  match s with
  | Concrete _ _ _ => []
  | Reconnectable v _ => LReconnectable :: layers v
  | Traced v _ => LTraced :: layers v
  | Metriced v _ => LMetriced :: layers v
  end.

(** The layers a builder has selected, in the order [Build] is specified to
    apply them, outermost first. *)
Definition layer_if {A} (o : option A) (l : Layer) : list Layer :=
  match o with Some _ => [l] | None => [] end.

Definition selected (b : Builder) : list Layer :=
  (layer_if (metrics b) LMetriced ++
   layer_if (tracer b) LTraced ++
   layer_if (reconnect b) LReconnectable)%list.

(** ** The decorators' methods

    The methods of a decorator call the methods of the [Storage] it wraps.
    Those are taken as they come: a method set over a world [W] that the
    wrapped resource reads and changes. *)

(** A [context.Context] as the retry loop uses it: whether the [select]
    that precedes attempt [k] receives from [ctx.Done()] before its timer
    fires, and what [ctx.Err()] then answers. *)
Record Context : Type :=
  { Done_before : Z -> bool;
    Err : option error }.

Record Methods (W : Type) : Type :=
  { Connect : Context -> W -> option error * W;
    Ping : Context -> W -> option error * W;
    Close : Context -> W -> option error * W;
    Name : W -> string;
    Type_ : W -> Kind;
    State_ : W -> State }.

Arguments Connect {W} _ _ _.
Arguments Ping {W} _ _ _.
Arguments Close {W} _ _ _.
Arguments Name {W} _ _.
Arguments Type_ {W} _ _.
Arguments State_ {W} _ _.

(** What a decorator does to the resource it wraps, in order. *)
Inductive Call : Type :=
| CallConnect (res : option error)
| CallPing (res : option error)
| CallClose (res : option error)
| Sleep (interval : Z)
| Cancelled (interval : Z).

Definition is_connect (c : Call) : bool :=
  match c with CallConnect _ => true | _ => false end.

(** The number of connect attempts in a trace. *)
Definition attempts (tr : list Call) : nat :=
  List.length (List.filter is_connect tr).

(** The error of the last failed connect attempt in a trace. *)
Fixpoint last_failure (tr : list Call) : option error :=
  match tr with
  | [] => None
  | c :: tr' =>
      match last_failure tr', c with
      | Some e, _ => Some e
      | None, CallConnect (Some e) => Some e
      | None, _ => None
      end
  end.

Section Reconnectable_methods.

Context {W : Type}.

(** [time.Duration(float64(interval) * multiplier)]: floating-point
    arithmetic, left to the platform. *)
Variable scale : Z -> float -> Z.

Variable unicode_ToLower : string -> string.

(** The fields of the receiver: [r.storage] and [r.config]. *)
Variable r_storage : Methods W.
Variable r_config : ReconnectConfig.

(** The [for] loop of [connectWithRetry], one iteration per unit of fuel:
    [None] when the fuel is spent before the loop has returned. *)
Fixpoint retry_loop (fuel : nat) (ctx : Context)
    (attempt interval : Z) (lastErr : option error) (w : W) (tr : list Call)
    : option (option error * W * list Call) :=
  match fuel with
  | O => None
  | S fuel' =>
      if attempt <=? MaxRetries r_config then
        if (0 <? attempt) && Done_before ctx attempt then
          Some (Err ctx, w, (tr ++ [Cancelled interval])%list)
        else
          let '(interval', tr) :=
            if 0 <? attempt then
              let i := scale interval (Multiplier r_config) in
              (if MaxInterval r_config <? i then MaxInterval r_config else i,
               (tr ++ [Sleep interval])%list)
            else (interval, tr) in
          let '(err, w') := Connect r_storage ctx w in
          match err with
          | None => Some (None, w', (tr ++ [CallConnect None])%list)
          | Some e =>
              retry_loop fuel' ctx (wrap_int (attempt + 1)) interval' (Some e) w'
                (tr ++ [CallConnect (Some e)])%list
          end
      else
        Some (Some (Errorf_w
                      ("connect failed after "
                         ++ itoa (wrap_int (MaxRetries r_config + 1)) ++ " attempts: ")
                      lastErr),
              w, tr)
  end.

Definition connectWithRetry (fuel : nat) (ctx : Context) (w : W)
    : option (option error * W * list Call) :=
  retry_loop fuel ctx 0 (InitialInterval r_config) None w [].

Definition Reconnectable_Connect (fuel : nat) (ctx : Context) (w : W)
    : option (option error * W * list Call) :=
  connectWithRetry fuel ctx w.

Definition Reconnectable_Ping (fuel : nat) (ctx : Context) (w : W)
    : option (option error * W * list Call) :=
  let '(err, w) := Ping r_storage ctx w in
  if isConnectionError unicode_ToLower err then
    let '(cerr, w) := Close r_storage ctx w in
    match connectWithRetry fuel ctx w with
    | None => None
    | Some (Some reconnErr, w, tr) =>
        Some (Some (Errorf_w "ping failed, reconnect failed: " (Some reconnErr)),
              w, (CallPing err :: CallClose cerr :: tr)%list)
    | Some (None, w, tr) =>
        let '(err', w) := Ping r_storage ctx w in
        Some (err', w, (CallPing err :: CallClose cerr :: tr ++ [CallPing err'])%list)
    end
  else Some (err, w, [CallPing err]).

Definition Reconnectable_Close (ctx : Context) (w : W) : option error * W :=
  Close r_storage ctx w.

End Reconnectable_methods.

(** [Metriced]: the calls it makes on its instruments. *)
Inductive MetricCall : Type :=
| CounterInc (i : Instrument) (labels : list string)
| HistogramSince (i : Instrument) (start now : Z) (labels : list string).

Section Metriced_methods.

Context {W : Type}.

(** [time.Now()], in nanoseconds, read off the world. *)
Variable clock : W -> Z.

(** The fields of the receiver: [m.storage] and [m.metrics]. *)
Variable m_storage : Methods W.
Variable m_metrics : Metrics.

Definition record (op : string) (start : Z) (err : option error) (w : W)
    : list MetricCall :=
  let labels := [Name m_storage w; Type_ m_storage w; op] in
  ([CounterInc (operations m_metrics) labels;
    HistogramSince (duration m_metrics) start (clock w) labels] ++
   match err with
   | Some _ => [CounterInc (errors m_metrics) labels]
   | None => []
   end)%list.

Definition Metriced_Connect (ctx : Context) (w : W)
    : option error * W * list MetricCall :=
  let start := clock w in
  let '(err, w) := Connect m_storage ctx w in
  (err, w, record "connect" start err w).

Definition Metriced_Ping (ctx : Context) (w : W)
    : option error * W * list MetricCall :=
  let start := clock w in
  let '(err, w) := Ping m_storage ctx w in
  (err, w, record "ping" start err w).

Definition Metriced_Close (ctx : Context) (w : W)
    : option error * W * list MetricCall :=
  let start := clock w in
  let '(err, w) := Close m_storage ctx w in
  (err, w, record "close" start err w).

End Metriced_methods.

(** ** The manager (storage/manager.go) *)

Record manager : Type :=
  { storages : gmap string Storage;
    order : list string }.

Definition NewManager : manager := {| storages := ∅; order := [] |}.

Section Manager.

(** The verb [%q] of [fmt]: [strconv.Quote]. *)
Variable Quote : string -> string.

Definition manager_Register (s : Storage) (m : manager) : option error * manager :=
  let name := Storage_Name s in
  match storages m !! name with
  | Some _ =>
      (Some (errorString ("storage " ++ Quote name ++ " already registered")), m)
  | None =>
      (None, {| storages := <[name := s]> (storages m);
                order := (order m ++ [name])%list |})
  end.

Definition manager_Get (name : string) (m : manager) : option Storage :=
  storages m !! name.

Definition manager_List (m : manager) : list string := order m.

(** Registering several resources one after the other, the errors dropped. *)
Definition register_all (ss : list Storage) (m : manager) : manager :=
  fold_left (fun m s => snd (manager_Register s m)) ss m.

End Manager.

(** The names of a sequence of registrations that were not taken before:
    each name once, where it first occurs. *)
Fixpoint first_occurrences (seen : gset string) (names : list string) : list string :=
  match names with
  | [] => []
  | n :: names' =>
      if decide (n ∈ seen) then first_occurrences seen names'
      else n :: first_occurrences ({[n]} ∪ seen) names'
  end.

(** The consistency of a registry: the ordered names are the keys of the
    map, each once. *)
Definition manager_wf (m : manager) : Prop :=
  NoDup (order m) /\ forall n, n ∈ order m <-> is_Some (storages m !! n).

(** ** The test double of the package's tests (storage/reconnectable_test.go) *)

Record mockStorage : Type :=
  { mock_Base : Base;
    connectErr : option error;
    pingErr : option error;
    connectCount : Z }.

Definition newMockStorage : mockStorage :=
  {| mock_Base := NewBase "mock" "unknown";
     connectErr := None; pingErr := None; connectCount := 0 |}.

Definition mock_Connect (ctx : Context) (m : mockStorage) : option error * mockStorage :=
  let count := wrap_int (connectCount m + 1) in
  match connectErr m with
  | Some e =>
      (Some e, {| mock_Base := mock_Base m; connectErr := connectErr m;
                  pingErr := pingErr m; connectCount := count |})
  | None =>
      (None, {| mock_Base := SetState StateConnected (mock_Base m);
                connectErr := connectErr m;
                pingErr := pingErr m; connectCount := count |})
  end.

Definition mock_Ping (ctx : Context) (m : mockStorage) : option error * mockStorage :=
  (pingErr m, m).

Definition mock_Close (ctx : Context) (m : mockStorage) : option error * mockStorage :=
  (None, {| mock_Base := SetState StateDisconnected (mock_Base m);
            connectErr := connectErr m;
            pingErr := pingErr m; connectCount := connectCount m |}).

Definition mock : Methods mockStorage :=
  {| Connect := mock_Connect;
     Ping := mock_Ping;
     Close := mock_Close;
     Name := fun m => name (mock_Base m);
     Type_ := fun m => typ (mock_Base m);
     State_ := fun m => state (mock_Base m) |}.

Definition failing (msg : string) : mockStorage :=
  {| mock_Base := NewBase "mock" "unknown";
     connectErr := Some (errorString msg); pingErr := None; connectCount := 0 |}.

(** [context.Background()]. *)
Definition Background : Context :=
  {| Done_before := fun _ => false; Err := None |}.

(** A context cancelled while the loop waits before attempt [k]. *)
Definition cancelled_before (k : Z) : Context :=
  {| Done_before := fun a => a =? k; Err := Some (errorString "context canceled") |}.

(** The test's configuration, with [MaxRetries] set to [n]. *)
Definition test_config (n : Z) : ReconnectConfig :=
  {| MaxRetries := n;
     InitialInterval := 1000000;
     MaxInterval := 10000000;
     Multiplier := 2%float |}.

(** A stand-in for the floating-point product where its value is of no
    consequence: exact doubling. *)
Definition double (interval : Z) (m : float) : Z := 2 * interval.

(** ** Notions the properties are stated with *)

(** The method [Unwrap] of a decorator, applied [n] times. *)
Fixpoint peel (n : nat) (s : Storage) : Storage :=
  match n with
  | O => s
  | S n' => match Unwrap1 s with Some v => peel n' v | None => s end
  end.

(** What one decorated lifecycle call must come to: the wrapped call's error
    and world, one increment of the operations counter and one observation of
    the duration histogram, both labelled name, type and operation (read
    after the call), the observation running from the clock before the call
    to the clock after it, and one increment of the errors counter, same
    labels, exactly when the wrapped call failed. *)
Definition records_call {W : Type} (clock : W -> Z) (inner : Methods W) (ms : Metrics)
    (op : string) (wrapped : Context -> W -> option error * W)
    (decorated : Context -> W -> option error * W * list MetricCall) : Prop :=
  forall ctx w,
    let '(err, w') := wrapped ctx w in
    let labels := [Name inner w'; Type_ inner w'; op] in
    decorated ctx w =
      (err, w',
       CounterInc (operations ms) labels
         :: HistogramSince (duration ms) (clock w) (clock w') labels
         :: match err with
            | Some _ => [CounterInc (errors ms) labels]
            | None => []
            end).

(** The label the specification expects on the operations counter. *)
Definition outcome (err : option error) : string :=
  match err with None => "success" | Some _ => "error" end.

Definition labels_of (c : MetricCall) : list string :=
  match c with
  | CounterInc _ labels => labels
  | HistogramSince _ _ _ labels => labels
  end.

(** A clock for the test double: a millisecond per connect attempt made. *)
Definition mock_clock (m : mockStorage) : Z := 1000000 * connectCount m.

(** The wrapped [Connect] fails in every world that satisfies [Inv], and
    leaves such a world behind: it keeps failing from there. *)
Definition fails_under {W : Type} (inner : Methods W) (Inv : W -> Prop) : Prop :=
  forall c w, Inv w ->
    fst (Connect inner c w) <> None /\ Inv (snd (Connect inner c w)).

(** The error the loop holds after the calls [tr], having held [lastErr]
    before them. *)
Definition last_or (lastErr : option error) (tr : list Call) : option error :=
  match last_failure tr with Some e => Some e | None => lastErr end.

(** A trace of failed connect attempts and the waits between them. *)
Definition waits_and_failures (tr : list Call) : Prop :=
  Forall (fun c => match c with Sleep _ | CallConnect (Some _) => True | _ => False end) tr.

Definition is_ping (c : Call) : bool :=
  match c with CallPing _ => true | _ => false end.

Definition is_close (c : Call) : bool :=
  match c with CallClose _ => true | _ => false end.

Definition pings (tr : list Call) : nat := List.length (List.filter is_ping tr).

Definition closes (tr : list Call) : nat := List.length (List.filter is_close tr).

(** ** More of the manager: lookups, [CloseAll], [checkHealth] *)

(** [Type()]: every decorator forwards it. *)
Fixpoint Storage_Type (s : Storage) : Kind :=
  match s with
  | Concrete _ _ t => t
  | Reconnectable v _ | Traced v _ | Metriced v _ => Storage_Type v
  end.

(** [errors.Join]: nil values are dropped; nil when nothing is left, and
    otherwise a [*errors.joinError] holding the rest in order. *)
Record joinError : Type := { errs : list error }.

Definition errors_Join (es : list (option error)) : option joinError :=
  match omap id es with
  | [] => None
  | es' => Some {| errs := es' |}
  end.

(** [MustGet] returns the resource or panics with a message. *)
Inductive Must (A : Type) : Type :=
| Returns (a : A)
| Panics (msg : string).

Arguments Returns {A} a.
Arguments Panics {A} msg.

Section Manager_lookups.

Variable Quote : string -> string.

Definition manager_MustGet (name : string) (m : manager) : Must Storage :=
  match manager_Get name m with
  | Some s => Returns s
  | None => Panics ("storage " ++ Quote name ++ " not found")
  end.

(** [for _, s := range m.storages]: Go visits the entries of a map in an
    order of its own choosing. *)
Variable range : gmap string Storage -> list (string * Storage).

Definition manager_GetByType (t : Kind) (m : manager) : list Storage :=
  snd <$> filter (fun kv => Storage_Type (snd kv) = t) (range (storages m)).

End Manager_lookups.

Section Manager_lifecycle.

Context {W : Type}.

(** The method set of each registered value, over one world. *)
Variable dispatch : Storage -> Methods W.

(** One round of the loop of [CloseAll]: the world, the errors collected
    and the closes made so far. *)
Definition CloseAll_step (ctx : Context) (m : manager)
    (acc : W * list error * list (string * option error)) (n : string)
    : W * list error * list (string * option error) :=
  let '(w, es, tr) := acc in
  match manager_Get n m with
  | Some s =>
      let '(err, w) := Close (dispatch s) ctx w in
      (w,
       match err with
       | Some e => (es ++ [Errorf_w (Storage_Name s ++ ": ") (Some e)])%list
       | None => es
       end,
       (tr ++ [(n, err)])%list)
  | None => acc
  end.

Definition manager_CloseAll (ctx : Context) (m : manager) (w : W)
    : option joinError * W * list (string * option error) :=
  let '(w, es, tr) := fold_left (CloseAll_step ctx m) (rev (order m)) (w, [], []) in
  (errors_Join (List.map Some es), w, tr).

End Manager_lifecycle.

(** The error [CloseAll] keeps for one close, if it failed. *)
Definition close_failure (c : string * option error) : option error :=
  match c with
  | (n, Some e) => Some (Errorf_w (n ++ ": ") (Some e))
  | (_, None) => None
  end.

Definition manager_named (m : manager) : Prop :=
  forall n s, storages m !! n = Some s -> Storage_Name s = n.

(** The first of [ss] that answers the name [n]. *)
Definition first_named (n : string) (ss : list Storage) : option Storage :=
  List.find (fun s => String.eqb (Storage_Name s) n) ss.

(** ** Pool statistics: [Stats], [checkHealth], [PoolMetrics], [Collector] *)

Record Stats : Type :=
  { MaxOpenConnections : Z;
    OpenConnections : Z;
    InUse : Z;
    Idle : Z;
    WaitCount : Z;
    WaitDuration : Z }.

Record HealthStatus : Type :=
  { hs_Name : string;
    hs_Type : Kind;
    hs_State : string;
    hs_Healthy : bool;
    hs_Latency : Z;
    hs_Error : string;
    hs_Stats : option Stats;
    hs_CheckedAt : Z }.

Section Statistics.

Context {W : Type}.

Variable clock : W -> Z.

Variable dispatch : Storage -> Methods W.

(** The adapters that implement [StatsProvider], by address, with what
    their [Stats()] reads off the world. *)
Variable provider : positive -> option (W -> Stats).

(** The type assertion [s.(StatsProvider)]: none of the three decorators
    has a method [Stats]. *)
Definition as_StatsProvider (s : Storage) : option (W -> Stats) :=
  match s with
  | Concrete a _ _ => provider a
  | Reconnectable _ _ | Traced _ _ | Metriced _ _ => None
  end.

Definition checkHealth (ctx : Context) (s : Storage) (w : W) : HealthStatus * W :=
  let state_before := State_String (State_ (dispatch s) w) in
  let checked := clock w in
  let start := clock w in
  let '(err, w') := Ping (dispatch s) ctx w in
  ({| hs_Name := Storage_Name s;
      hs_Type := Storage_Type s;
      hs_State := state_before;
      hs_Healthy := match err with None => true | Some _ => false end;
      hs_Latency := clock w' - start;
      hs_Error := match err with Some e => Error e | None => "" end;
      hs_Stats := match as_StatsProvider s with
                  | Some stats => Some (stats w')
                  | None => None
                  end;
      hs_CheckedAt := checked |}, w').

(** [PoolMetrics]: four gauges, a counter and a histogram. *)
Record PoolMetrics : Type :=
  { pm_maxOpen : Instrument;
    pm_open : Instrument;
    pm_inUse : Instrument;
    pm_idle : Instrument;
    pm_waitCount : Instrument;
    pm_waitDuration : Instrument }.

Definition NewPoolMetrics (subsystem : string) : PoolMetrics :=
  let prefix := if String.eqb subsystem "" then "storage_pool_" else subsystem ++ "_pool_" in
  {| pm_maxOpen := {| metric := prefix ++ "max_open"; label_names := ["name"; "type"] |};
     pm_open := {| metric := prefix ++ "open"; label_names := ["name"; "type"] |};
     pm_inUse := {| metric := prefix ++ "in_use"; label_names := ["name"; "type"] |};
     pm_idle := {| metric := prefix ++ "idle"; label_names := ["name"; "type"] |};
     pm_waitCount := {| metric := prefix ++ "wait_total"; label_names := ["name"; "type"] |};
     pm_waitDuration :=
       {| metric := prefix ++ "wait_seconds"; label_names := ["name"; "type"] |} |}.



Record Collector : Type :=
  { c_metrics : PoolMetrics;
    c_storages : list Storage;
    c_interval : Z }.

Definition NewCollector (m : PoolMetrics) (interval : Z) : Collector :=
  {| c_metrics := m;
     c_storages := [];
     c_interval := if interval <=? 0 then 15 * second else interval |}.



End Statistics.



(** ** [Traced]: the calls it makes on the tracer and on its span *)

Inductive StatusCode : Type := codes_Error | codes_Ok.

Inductive SpanCall : Type :=
| TracerStart (t : Tracer) (span : string) (attrs : list (string * string))
| SpanRecordError (e : error)
| SpanSetStatus (code : StatusCode) (description : string)
| SpanEnd.

Section Traced_methods.

Context {W : Type}.

(** The fields of the receiver: [t.storage] and [t.tracer]. *)
Variable t_storage : Methods W.
Variable t_tracer : Tracer.

Definition startSpan (op : string) (w : W) : SpanCall :=
  TracerStart t_tracer ("storage." ++ op)
    [("storage.name", Name t_storage w); ("storage.type", Type_ t_storage w)].

Definition recordError (err : option error) : list SpanCall :=
  match err with
  | Some e => [SpanRecordError e; SpanSetStatus codes_Error (Error e)]
  | None => [SpanSetStatus codes_Ok ""]
  end.

(** The deferred [span.End()] runs last. *)
Definition Traced_Connect (ctx : Context) (w : W) : option error * W * list SpanCall :=
  let span := startSpan "Connect" w in
  let '(err, w) := Connect t_storage ctx w in
  (err, w, (span :: recordError err ++ [SpanEnd])%list).

Definition Traced_Ping (ctx : Context) (w : W) : option error * W * list SpanCall :=
  let span := startSpan "Ping" w in
  let '(err, w) := Ping t_storage ctx w in
  (err, w, (span :: recordError err ++ [SpanEnd])%list).

Definition Traced_Close (ctx : Context) (w : W) : option error * W * list SpanCall :=
  let span := startSpan "Close" w in
  let '(err, w) := Close t_storage ctx w in
  (err, w, (span :: recordError err ++ [SpanEnd])%list).

End Traced_methods.

Definition is_start (c : SpanCall) : bool :=
  match c with TracerStart _ _ _ => true | _ => false end.

Definition is_end (c : SpanCall) : bool :=
  match c with SpanEnd => true | _ => false end.

Definition status_of (c : SpanCall) : option StatusCode :=
  match c with SpanSetStatus code _ => Some code | _ => None end.

(** One traced lifecycle call: the wrapped call's error and world; a span
    started before the call under the operation's name, tagged with the name
    and type the resource answered then; its status set once, to Error with
    the error recorded exactly when the call failed; the span ended last. *)
Definition traces_call {W : Type} (inner : Methods W) (t : Tracer) (op : string)
    (wrapped : Context -> W -> option error * W)
    (decorated : Context -> W -> option error * W * list SpanCall) : Prop :=
  forall ctx w,
    let '(err, w') := wrapped ctx w in
    let '(err', w'', calls) := decorated ctx w in
    err' = err /\ w'' = w' /\
    head calls = Some (TracerStart t ("storage." ++ op)
                         [("storage.name", Name inner w); ("storage.type", Type_ inner w)]) /\
    last calls = Some SpanEnd /\
    List.length (List.filter is_start calls) = 1%nat /\
    List.length (List.filter is_end calls) = 1%nat /\
    omap status_of calls = [match err with Some _ => codes_Error | None => codes_Ok end] /\
    (forall e, In (SpanRecordError e) calls <-> err = Some e).

(** ** The storage adapters' [Ping] and [Close] *)

(** [s.field != nil] *)
Definition has (field : string) : Conn bool :=
  fun c tr => (bool_decide (is_Some (fields c !! field)), c, tr).

(** [s.field = nil] *)
Definition clear (field : string) : Conn unit :=
  fun c tr => (tt, {| base := base c; fields := delete field (fields c) |}, tr).

Definition redis_Ping (env : IOEnv) : Conn (option error) :=
  (connected <- has "client" ;;
   if negb connected then ret (Some (errorString "redis: not connected")) else
   io env "client.Ping")%conn.

Definition redis_Close (env : IOEnv) : Conn (option error) :=
  (connected <- has "client" ;;
   if negb connected then ret None else
   set_state StateDisconnecting ;;
   err <- io env "client.Close" ;;
   set_state StateDisconnected ;;
   clear "client" ;;
   ret err)%conn.

Definition mongodb_Ping (env : IOEnv) : Conn (option error) :=
  (connected <- has "client" ;;
   if negb connected then ret (Some (errorString "mongodb: not connected")) else
   io env "client.Ping")%conn.

Definition mongodb_Close (env : IOEnv) : Conn (option error) :=
  (connected <- has "client" ;;
   if negb connected then ret None else
   set_state StateDisconnecting ;;
   err <- io env "client.Disconnect" ;;
   set_state StateDisconnected ;;
   clear "client" ;;
   clear "database" ;;
   ret err)%conn.

Definition clickhouse_Ping (env : IOEnv) : Conn (option error) :=
  (connected <- has "conn" ;;
   if negb connected then ret (Some (errorString "clickhouse: not connected")) else
   io env "conn.Ping")%conn.

Definition clickhouse_Close (env : IOEnv) : Conn (option error) :=
  (connected <- has "conn" ;;
   if negb connected then ret None else
   set_state StateDisconnecting ;;
   err <- io env "conn.Close" ;;
   set_state StateDisconnected ;;
   clear "conn" ;;
   ret err)%conn.

Definition elasticsearch_Ping (env : IOEnv) : Conn (option error) :=
  (connected <- has "client" ;;
   if negb connected then ret (Some (errorString "elasticsearch: not connected")) else
   r <- io env "client.Ping" ;;
   match r with
   | Some err => ret (Some err)
   | None =>
       r <- io env "res.IsError" ;;
       call_ "res.Body.Close" ;;
       match r with
       | Some status => ret (Some (errorString ("elasticsearch: ping error: " ++ Error status)))
       | None => ret None
       end
   end)%conn.

Definition elasticsearch_Close (env : IOEnv) : Conn (option error) :=
  (set_state StateDisconnecting ;;
   clear "client" ;;
   set_state StateDisconnected ;;
   ret None)%conn.

Definition mysql_Ping (env : IOEnv) : Conn (option error) :=
  (connected <- has "db" ;;
   if negb connected then ret (Some (errorString "mysql: not connected")) else
   r <- io env "db.DB" ;;
   match r with
   | Some err => ret (Some err)
   | None => io env "sqlDB.PingContext"
   end)%conn.

Definition mysql_Close (env : IOEnv) : Conn (option error) :=
  (connected <- has "db" ;;
   if negb connected then ret None else
   set_state StateDisconnecting ;;
   r <- io env "db.DB" ;;
   match r with
   | Some err =>
       set_state StateDisconnected ;;
       ret (Some err)
   | None =>
       err <- io env "sqlDB.Close" ;;
       set_state StateDisconnected ;;
       clear "db" ;;
       ret err
   end)%conn.

(** An adapter with its three lifecycle methods and the field that holds
    its driver handle. *)
Record Lifecycle : Type :=
  { lc_adapter : string;
    lc_handle : string;
    lc_Cfg : Type;
    lc_Connect : lc_Cfg -> IOEnv -> Conn (option error);
    lc_Ping : IOEnv -> Conn (option error);
    lc_Close : IOEnv -> Conn (option error) }.

Definition redis_lifecycle : Lifecycle :=
  {| lc_adapter := "redis"; lc_handle := "client"; lc_Cfg := redis_Config;
     lc_Connect := redis_Connect; lc_Ping := redis_Ping; lc_Close := redis_Close |}.

Definition mongodb_lifecycle : Lifecycle :=
  {| lc_adapter := "mongodb"; lc_handle := "client"; lc_Cfg := unit;
     lc_Connect := fun _ => mongodb_Connect; lc_Ping := mongodb_Ping;
     lc_Close := mongodb_Close |}.

Definition clickhouse_lifecycle : Lifecycle :=
  {| lc_adapter := "clickhouse"; lc_handle := "conn"; lc_Cfg := unit;
     lc_Connect := fun _ => clickhouse_Connect; lc_Ping := clickhouse_Ping;
     lc_Close := clickhouse_Close |}.

Definition elasticsearch_lifecycle : Lifecycle :=
  {| lc_adapter := "elasticsearch"; lc_handle := "client"; lc_Cfg := unit;
     lc_Connect := fun _ => elasticsearch_Connect; lc_Ping := elasticsearch_Ping;
     lc_Close := elasticsearch_Close |}.

Definition mysql_lifecycle : Lifecycle :=
  {| lc_adapter := "mysql"; lc_handle := "db"; lc_Cfg := mysql_Config;
     lc_Connect := mysql_Connect; lc_Ping := mysql_Ping; lc_Close := mysql_Close |}.

(** The adapter as its constructor leaves it. *)
Definition New_client (n : string) (t : Kind) : Client :=
  {| base := NewBase n t; fields := ∅ |}.

Inductive Op : Type := DoConnect | DoPing | DoClose.

(** One lifecycle call, with the driver behaving as [env] says. *)
Definition apply_op (L : Lifecycle) (cfg : lc_Cfg L) (c : Client) (step : Op * IOEnv)
    : Client :=
  let m := match fst step with
           | DoConnect => lc_Connect L cfg (snd step)
           | DoPing => lc_Ping L (snd step)
           | DoClose => lc_Close L (snd step)
           end in
  snd (fst (run m c)).

(** Any number of lifecycle calls, one after the other. *)
Definition after_ops (L : Lifecycle) (cfg : lc_Cfg L) (steps : list (Op * IOEnv))
    (c : Client) : Client :=
  fold_left (apply_op L cfg) steps c.

(** Handle and state agree: the adapter holds a driver handle exactly when
    its state is Connected, and between calls it is Connected or
    Disconnected. *)
Definition in_step (field : string) (c : Client) : Prop :=
  (is_Some (fields c !! field) <-> state (base c) = StateConnected) /\
  (state (base c) = StateConnected \/ state (base c) = StateDisconnected).

Definition stays_in_step (L : Lifecycle) : Prop :=
  forall (cfg : lc_Cfg L) (n : string) (t : Kind) (steps : list (Op * IOEnv)),
    let c := after_ops L cfg steps (New_client n t) in
    in_step (lc_handle L) c /\
    (* [Ping] answers "not connected" without calling the driver exactly
       when the state is not Connected *)
    (forall env,
        state (base c) <> StateConnected ->
        run (lc_Ping L env) c =
          (Some (errorString (lc_adapter L ++ ": not connected")), c, [])) /\
    (forall env,
        state (base c) = StateConnected ->
        exists res tr, run (lc_Ping L env) c = (res, c, tr) /\ tr <> []) /\
    (* [Close] ends Disconnected without a handle, whatever the driver says,
       and the next [Connect] is let in *)
    (forall env env',
        let c' := apply_op L cfg c (DoClose, env) in
        state (base c') = StateDisconnected /\
        fields c' !! lc_handle L = None /\
        exists tr, snd (run (lc_Connect L cfg env') c') =
                     EvCAS StateDisconnected StateConnecting true :: tr).

(** A driver whose [db.DB()] fails, and a connected mysql adapter. *)
Definition db_gone : IOEnv :=
  fun call =>
    if String.eqb call "db.DB" then Some (errorString "sql: database is closed") else None.

Definition connected_mysql : Client :=
  {| base := {| name := "mysql"; typ := "mysql"; state := StateConnected |};
     fields := {["db" := "gorm.Open"]} |}.

(** How two [Connect] calls in a row go, for one adapter. *)
Definition reconnects_only_after_failure (A : Adapter) : Prop :=
  forall (cfg cfg' : Cfg A) (env env' : IOEnv) (c : Client),
    state (base c) = StateDisconnected ->
    let '(res, c1, _) := run (Connect_of A cfg env) c in
    let '(res', c2, tr') := run (Connect_of A cfg' env') c1 in
    match res with
    | None =>
        (* connected: the second call is turned away, and changes nothing *)
        res' = Some (errorString (adapter A ++ ": invalid state for connect")) /\
        c2 = c1 /\
        tr' = [EvCAS StateDisconnected StateConnecting false]
    | Some _ =>
        (* failed: the second call is let in *)
        exists rest, tr' = EvCAS StateDisconnected StateConnecting true :: rest
    end.

(** The same, for one call from any client that is in step. *)
Definition in_step_locally (L : Lifecycle) : Prop :=
  forall (cfg : lc_Cfg L) (c : Client),
    in_step (lc_handle L) c ->
    (forall step, in_step (lc_handle L) (apply_op L cfg c step)) /\
    (forall env,
        state (base c) <> StateConnected ->
        run (lc_Ping L env) c =
          (Some (errorString (lc_adapter L ++ ": not connected")), c, [])) /\
    (forall env,
        state (base c) = StateConnected ->
        exists res tr, run (lc_Ping L env) c = (res, c, tr) /\ tr <> []) /\
    (forall env env',
        let c' := apply_op L cfg c (DoClose, env) in
        state (base c') = StateDisconnected /\
        fields c' !! lc_handle L = None /\
        exists tr, snd (run (lc_Connect L cfg env') c') =
                     EvCAS StateDisconnected StateConnecting true :: tr).

(** ** [redis.Storage.Stats] *)

(** The pool counters of the redis driver that [Stats] reads: unsigned
    integers of [counter_bits] bits. *)
Record PoolStats : Type :=
  { Timeouts : Z;
    TotalConns : Z;
    IdleConns : Z }.

Section Redis_stats.

Variable counter_bits : Z.

Definition counter (z : Z) : Prop := 0 <= z < 2 ^ counter_bits.

(** Subtraction of two counters, in their type. *)
Definition counter_sub (a b : Z) : Z := (a - b) mod 2 ^ counter_bits.

(** [client] is [None] when [s.client == nil]. *)
Definition redis_Stats (PoolSize : Z) (client : option PoolStats) : Stats :=
  match client with
  | None =>
      {| MaxOpenConnections := 0; OpenConnections := 0; InUse := 0; Idle := 0;
         WaitCount := 0; WaitDuration := 0 |}
  | Some stats =>
      {| MaxOpenConnections := PoolSize;
         OpenConnections := TotalConns stats;
         InUse := counter_sub (TotalConns stats) (IdleConns stats);
         Idle := IdleConns stats;
         WaitCount := Timeouts stats;
         WaitDuration := 0 |}
  end.

End Redis_stats.

(** ** The statement logger of the mysql adapter ([slowQueryLogger.Trace]) *)

(** The levels of gorm's logger. *)
Definition Silent : Z := 1.
Definition LevelError : Z := 2.
Definition LevelWarn : Z := 3.
Definition LevelInfo : Z := 4.

Inductive LogCall : Type :=
| LogError (msg : string)
| LogWarn (msg : string)
| LogInfo (msg : string).

(** [New]: a threshold that is not positive becomes 200ms. *)
Definition mysql_SlowThreshold (configured : Z) : Z :=
  if configured <=? 0 then 200 * 1000000 else configured.

(** [Trace], for a statement that took [elapsed] and ended with [err]. *)
Definition slowQueryLogger_Trace (logLevel slowThreshold elapsed : Z) (err : option error)
    : list LogCall :=
  if logLevel <=? Silent then [] else
  if (match err with Some _ => true | None => false end) && (LevelError <=? logLevel)
  then [LogError "sql error"] else
  if (slowThreshold <? elapsed) && (0 <? slowThreshold) && (LevelWarn <=? logLevel)
  then [LogWarn "slow sql"] else
  if LevelInfo <=? logLevel then [LogInfo "sql"] else [].

(** ** Runs of the retry loop *)

(** Where the retry loop stands after the calls it has made. *)
Inductive Phase : Type := AtStart | AfterFailure | AfterWait | Finished.

Definition phase_step (p : Phase) (c : Call) : option Phase :=
  match p, c with
  | (AtStart | AfterWait), CallConnect None => Some Finished
  | (AtStart | AfterWait), CallConnect (Some _) => Some AfterFailure
  | AfterFailure, Sleep _ => Some AfterWait
  | AfterFailure, Cancelled _ => Some Finished
  | _, _ => None
  end.

Fixpoint phase_after (p : Phase) (tr : list Call) : option Phase :=
  match tr with
  | [] => Some p
  | c :: tr' =>
      match phase_step p c with
      | Some p' => phase_after p' tr'
      | None => None
      end
  end.

(** A trace the loop can have left behind when it returns: an attempt
    first, one wait between two attempts, nothing after a success or a
    cancellation, and no wait left without its attempt. *)
Definition retry_shaped (tr : list Call) : bool :=
  match phase_after AtStart tr with
  | Some (AtStart | AfterFailure | Finished) => true
  | _ => false
  end.

(** The intervals the loop waited for, a cancelled wait included. *)
Fixpoint waits (tr : list Call) : list Z :=
  match tr with
  | [] => []
  | (Sleep d | Cancelled d) :: tr' => d :: waits tr'
  | _ :: tr' => waits tr'
  end.

(** What [connectWithRetry] answers, read off the calls it made. *)
Definition outcome_of_run (cfg : ReconnectConfig) (ctx : Context) (tr : list Call)
    : option error :=
  match last tr with
  | Some (CallConnect None) => None
  | Some (Cancelled _) => Err ctx
  | _ =>
      Some (Errorf_w
              ("connect failed after " ++ itoa (wrap_int (MaxRetries cfg + 1)) ++ " attempts: ")
              (last_failure tr))
  end.
(** A back-off that starts small and is capped: the first wait is the
    initial interval, every later one at most the maximal interval. *)
Definition backoff_capped (cfg : ReconnectConfig) (ds : list Z) : Prop :=
  match ds with
  | [] => True
  | d :: ds' => d = InitialInterval cfg /\ Forall (fun d' => d' <= MaxInterval cfg) ds'
  end.

(** The loop's bookkeeping at the head of an iteration, without overflow:
    nothing done before attempt 0, and before a later attempt [a] exactly [a]
    attempts made, the last of them failed with [lastErr]. *)
Definition at_head (a : Z) (lastErr : option error) (tr : list Call) : Prop :=
  (a = 0 /\ tr = [] /\ lastErr = None) \/
  (0 < a /\ phase_after AtStart tr = Some AfterFailure /\
   lastErr = last_failure tr /\
   exists tr0 e, tr = (tr0 ++ [CallConnect (Some e)])%list).

(** ** A decorator over an adapter *)

(** The method set of an adapter, its driver answering each call the same
    way every time; the world is the adapter itself. *)
Definition adapter_methods (L : Lifecycle) (cfg : lc_Cfg L) (env : IOEnv) : Methods Client :=
  {| Connect := fun _ c => fst (run (lc_Connect L cfg env) c);
     Ping := fun _ c => fst (run (lc_Ping L env) c);
     Close := fun _ c => fst (run (lc_Close L env) c);
     Name := fun c => name (base c);
     Type_ := fun c => typ (base c);
     State_ := fun c => state (base c) |}.

(** [Reconnectable.Connect] around an adapter that is not Disconnected. *)
Definition retries_invalid_state (L : Lifecycle) : Prop :=
  forall (scale : Z -> float -> Z) (cfg : lc_Cfg L) (env : IOEnv)
         (r_config : ReconnectConfig) (ctx : Context) (c : Client) (fuel : nat),
    state (base c) <> StateDisconnected ->
    0 <= MaxRetries r_config < int_max ->
    (forall k, Done_before ctx k = false) ->
    (Z.to_nat (MaxRetries r_config) + 2 <= fuel)%nat ->
    exists err tr,
      Reconnectable_Connect scale (adapter_methods L cfg env) r_config fuel ctx c =
        Some (Some err, c, tr) /\
      attempts tr = Z.to_nat (MaxRetries r_config + 1) /\
      List.length (waits tr) = Z.to_nat (MaxRetries r_config) /\
      errors_Unwrap err =
        Some (errorString (lc_adapter L ++ ": invalid state for connect")).

Definition lifecycles : list Lifecycle :=
  [redis_lifecycle; mongodb_lifecycle; clickhouse_lifecycle; elasticsearch_lifecycle;
   mysql_lifecycle].

(** * Properties *)

(** ** [Unwrap] and [Build] *)

Lemma Unwrap_not_decorator (s : Storage) : is_decorator (Unwrap s) = false.
Proof. induction s; simpl; auto. Qed.

Lemma Unwrap_fixes_concrete (s : Storage) : is_decorator s = false -> Unwrap s = s.
Proof. destruct s; simpl; intros H; congruence. Qed.

Lemma Unwrap_NewReconnectable (s : Storage) (cfg : ReconnectConfig) :
  Unwrap (NewReconnectable s cfg) = Unwrap s /\
  layers (NewReconnectable s cfg) = LReconnectable :: layers s /\
  Unwrap1 (NewReconnectable s cfg) = Some s.
Proof. unfold NewReconnectable. destruct (Multiplier cfg <=? 0)%float; auto. Qed.

Lemma Build_shape (b : Builder) :
  layers (Build b) = (selected b ++ layers (storage b))%list /\
  peel (List.length (selected b)) (Build b) = storage b /\
  Unwrap (Build b) = Unwrap (storage b).
Proof.
  destruct b as [s rc tr ms]. unfold Build, selected. simpl.
  destruct ms as [m|], tr as [t|], rc as [cfg|]; simpl;
    try destruct (Unwrap_NewReconnectable s cfg) as (Hu & Hl & H1);
    rewrite ?Hu, ?Hl, ?H1; auto.
Qed.

Lemma chain_storage (mods : list Modifier) (b : Builder) :
  storage (chain mods b) = storage b.
Proof.
  revert b. induction mods as [|m mods IH]; intros b; simpl; [reflexivity|].
  unfold chain in IH. rewrite IH. destruct m; reflexivity.
Qed.

(** C9.  The package-level [Unwrap] returns a value that is none of the
    three decorators unchanged; hence unwrapping twice is unwrapping once,
    and what [Unwrap] returns is never a decorator. *)
Theorem Unwrap_identity_idempotent :
  (forall s, is_decorator s = false -> Unwrap s = s) /\
  (forall s, Unwrap (Unwrap s) = Unwrap s) /\
  (forall s, is_decorator (Unwrap s) = false).
Proof.
  split; [exact Unwrap_fixes_concrete|]. split.
  - intros s. apply Unwrap_fixes_concrete, Unwrap_not_decorator.
  - exact Unwrap_not_decorator.
Qed.

(** C3.  For a base resource [r], a value that is none of the three
    decorators, and whatever modifiers were called on its builder, [Build]
    puts the selected decorators around [r] in the order Reconnectable
    (innermost), Traced, Metriced (outermost): the layers of the result are
    the selected ones, outermost first, taking them off again leaves [r], and
    the package-level [Unwrap] of the result is [r]. *)
Theorem Build_order_Unwrap (r : Storage) (mods : list Modifier) :
  is_decorator r = false ->
  let b := chain mods (NewBuilder r) in
  layers (Build b) = selected b /\
  peel (List.length (selected b)) (Build b) = r /\
  Unwrap (Build b) = r.
Proof.
  intros Hr b.
  assert (Hs : storage b = r) by (unfold b; rewrite chain_storage; reflexivity).
  destruct (Build_shape b) as (Hl & Hp & Hu). rewrite Hs in Hl, Hp, Hu.
  split; [|split].
  - rewrite Hl. destruct r; try discriminate. apply app_nil_r.
  - exact Hp.
  - rewrite Hu. apply Unwrap_fixes_concrete, Hr.
Qed.

(** All three decorators around a concrete resource, selected in another
    order than they are applied. *)
Lemma Build_order_Unwrap_witness :
  let r := Concrete 1 "db" "mysql" in
  let b := chain [ModMetrics (Some NewMetrics); ModReconnect DefaultReconnectConfig;
                  ModTracing (Some "tracer")] (NewBuilder r) in
  layers (Build b) = [LMetriced; LTraced; LReconnectable] /\ Unwrap (Build b) = r.
Proof.
  intros r b.
  destruct (Build_order_Unwrap r
              [ModMetrics (Some NewMetrics); ModReconnect DefaultReconnectConfig;
               ModTracing (Some "tracer")] eq_refl) as (Hl & _ & Hu).
  split; [exact Hl | exact Hu].
Defined.

(** X3.  Handed a resource [r] of any kind, [Build] still layers the selected
    decorators in that order around [r], and [Unwrap] of the result is
    [Unwrap r]: when [r] is itself a decorator, [Unwrap] goes through it as
    well and does not return [r]. *)
Theorem Build_Unwrap_any_base (r : Storage) (mods : list Modifier) :
  let b := chain mods (NewBuilder r) in
  layers (Build b) = (selected b ++ layers r)%list /\
  peel (List.length (selected b)) (Build b) = r /\
  Unwrap (Build b) = Unwrap r /\
  (is_decorator r = true -> Unwrap (Build b) <> r).
Proof.
  intros b.
  assert (Hs : storage b = r) by (unfold b; rewrite chain_storage; reflexivity).
  destruct (Build_shape b) as (Hl & Hp & Hu). rewrite Hs in Hl, Hp, Hu.
  repeat split; auto.
  intros Hr Heq. rewrite Hu in Heq.
  pose proof (Unwrap_not_decorator r) as Hn. rewrite Heq in Hn. congruence.
Qed.

(** ** The manager's registry *)

Section Manager_properties.

Variable Quote : string -> string.

Lemma Register_duplicate (s s0 : Storage) (m : manager) :
  storages m !! Storage_Name s = Some s0 ->
  manager_Register Quote s m =
    (Some (errorString ("storage " ++ Quote (Storage_Name s) ++ " already registered")), m).
Proof. intros H. unfold manager_Register. rewrite H. reflexivity. Qed.

Lemma Register_fresh (s : Storage) (m : manager) :
  storages m !! Storage_Name s = None ->
  manager_Register Quote s m =
    (None, {| storages := <[Storage_Name s := s]> (storages m);
              order := (order m ++ [Storage_Name s])%list |}).
Proof. intros H. unfold manager_Register. rewrite H. reflexivity. Qed.

Lemma register_all_order (ss : list Storage) (m : manager) :
  order (register_all Quote ss m) =
    (order m ++ first_occurrences (dom (storages m)) (List.map Storage_Name ss))%list.
Proof.
  revert m. induction ss as [|s ss IH]; intros m; simpl.
  - by rewrite app_nil_r.
  - unfold register_all in *. simpl. rewrite IH. clear IH.
    unfold manager_Register.
    destruct (storages m !! Storage_Name s) as [s0|] eqn:Hl; simpl.
    + rewrite decide_True; [done|]. apply elem_of_dom. eauto.
    + rewrite decide_False; [|by apply not_elem_of_dom].
      rewrite dom_insert_L, <- app_assoc. reflexivity.
Qed.

Lemma Register_wf (s : Storage) (m : manager) :
  manager_wf m -> manager_wf (snd (manager_Register Quote s m)).
Proof.
  intros [Hnd Hkeys]. unfold manager_Register.
  destruct (storages m !! Storage_Name s) as [s0|] eqn:Hl; simpl; [by split|].
  split; simpl.
  - apply NoDup_app. split; [done|]. split; [|apply NoDup_singleton].
    intros n Hn Hn'. apply list_elem_of_singleton in Hn'. subst n.
    apply Hkeys in Hn. rewrite Hl in Hn. by destruct Hn.
  - intros n. rewrite elem_of_app, list_elem_of_singleton, Hkeys.
    destruct (decide (n = Storage_Name s)) as [->|Hne].
    + rewrite lookup_insert_eq. split; eauto.
    + rewrite lookup_insert_ne by done. split; [intros [?|?]; done | auto].
Qed.

End Manager_properties.

(** X1.  [Register] keeps the registry consistent: the ordered names stay
    free of repetitions and stay exactly the keys of the map. *)
Theorem Register_keeps_registry_consistent (Quote : string -> string)
    (s : Storage) (m : manager) :
  manager_wf m -> manager_wf (snd (manager_Register Quote s m)).
Proof. apply Register_wf. Qed.

(** The first registration on an empty manager. *)
Lemma Register_keeps_registry_consistent_witness :
  manager_wf (snd (manager_Register id (Concrete 1 "a" "unknown") NewManager)).
Proof.
  apply Register_keeps_registry_consistent. split; simpl.
  - constructor.
  - intros n. rewrite lookup_empty. split.
    + intros H. by apply not_elem_of_nil in H.
    + intros [x Hx]. discriminate.
Defined.

(** C7.  [Register] of a resource whose name is taken returns the duplicate
    error and leaves the registry as it was, so the first registration is
    still what [Get] answers and [List] is unchanged; otherwise it puts the
    resource in the map under its name and appends the name to the ordered
    list.  Hence [List] answers the names in the order they were
    registered, each where it was first registered. *)
Theorem Register_duplicate_or_append (Quote : string -> string) :
  (forall s s0 m,
      manager_Get (Storage_Name s) m = Some s0 ->
      let '(err, m') := manager_Register Quote s m in
      err = Some (errorString
                    ("storage " ++ Quote (Storage_Name s) ++ " already registered")) /\
      m' = m /\
      manager_Get (Storage_Name s) m' = Some s0 /\
      manager_List m' = manager_List m) /\
  (forall s m,
      manager_Get (Storage_Name s) m = None ->
      let '(err, m') := manager_Register Quote s m in
      err = None /\
      storages m' = <[Storage_Name s := s]> (storages m) /\
      manager_Get (Storage_Name s) m' = Some s /\
      manager_List m' = (manager_List m ++ [Storage_Name s])%list) /\
  (forall ss,
      manager_List (register_all Quote ss NewManager) =
        first_occurrences ∅ (List.map Storage_Name ss)) /\
  (forall a b,
      manager_List (register_all Quote [Concrete a "a" "unknown"; Concrete b "b" "unknown"]
                      NewManager) = ["a"; "b"]).
Proof.
  unfold manager_Get, manager_List. split; [|split; [|split]].
  - intros s s0 m H. rewrite (Register_duplicate Quote s s0 m H). auto.
  - intros s m H. rewrite (Register_fresh Quote s m H). simpl.
    rewrite lookup_insert_eq. auto.
  - intros ss. rewrite register_all_order. simpl. by rewrite dom_empty_L.
  - intros a b. rewrite register_all_order. simpl. rewrite dom_empty_L.
    destruct (decide ("a" ∈ (∅ : gset string))) as [Ha|_].
    { by apply not_elem_of_empty in Ha. }
    destruct (decide ("b" ∈ ({["a"]} ∪ ∅ : gset string))) as [Hb|_]; [|done].
    apply elem_of_union in Hb as [Hb|Hb].
    + apply elem_of_singleton in Hb. discriminate.
    + by apply not_elem_of_empty in Hb.
Qed.

(** ** [Metriced] *)

(** C4, as amended.  [Metriced.Connect], [Ping] and [Close] return the
    wrapped call's error unchanged, increment the operations counter and
    observe the elapsed time in the duration histogram, both labelled
    {name, type, operation}, and increment a separate errors counter with the
    same labels exactly when the wrapped call returned an error; no call
    carries an outcome label. *)
Theorem Metriced_records_operation {W : Type} (clock : W -> Z) (inner : Methods W)
    (ms : Metrics) :
  records_call clock inner ms "connect" (Connect inner) (Metriced_Connect clock inner ms) /\
  records_call clock inner ms "ping" (Ping inner) (Metriced_Ping clock inner ms) /\
  records_call clock inner ms "close" (Close inner) (Metriced_Close clock inner ms) /\
  (forall ctx w c,
      In c (snd (Metriced_Connect clock inner ms ctx w)) \/
      In c (snd (Metriced_Ping clock inner ms ctx w)) \/
      In c (snd (Metriced_Close clock inner ms ctx w)) ->
      List.length (labels_of c) = 3%nat).
Proof.
  split; [|split; [|split]].
  - intros ctx w. unfold Metriced_Connect, record.
    destruct (Connect inner ctx w) as [[e|] w']; reflexivity.
  - intros ctx w. unfold Metriced_Ping, record.
    destruct (Ping inner ctx w) as [[e|] w']; reflexivity.
  - intros ctx w. unfold Metriced_Close, record.
    destruct (Close inner ctx w) as [[e|] w']; reflexivity.
  - intros ctx w c. unfold Metriced_Connect, Metriced_Ping, Metriced_Close, record.
    destruct (Connect inner ctx w) as [[e1|] w1];
      destruct (Ping inner ctx w) as [[e2|] w2];
      destruct (Close inner ctx w) as [[e3|] w3]; simpl;
      intuition (subst; reflexivity).
Qed.

(** C4 as stated fails: a successful [Connect] through the decorator
    increments no counter labelled {name, type, operation, outcome}. *)
Lemma Metriced_no_outcome_label :
  let '(err, w, calls) :=
    Metriced_Connect mock_clock mock NewMetrics Background newMockStorage in
  err = None /\
  ~ exists i, In (CounterInc i [Name mock w; Type_ mock w; "connect"; outcome err]) calls.
Proof.
  simpl. split; [reflexivity|]. intros [i [H|[H|[]]]]; discriminate H.
Qed.

(** ** The adapters' [Connect] *)

Ltac conn_unfold :=
  cbv [run redis_Connect mongodb_Connect clickhouse_Connect elasticsearch_Connect
       mysql_Connect kafka_Connect rabbitmq_Connect memory_Connect
       bind ret cas set_state io call_ store when fail_w CompareAndSwapState SetState
       base fields state name typ Connect_of adapter Cfg].

(** One more answer of the driver, or one more switch of the configuration. *)
Ltac conn_step :=
  match goal with
  | |- context [match ?e ?c with Some _ => _ | None => _ end] =>
      let H := fresh "Hio" in destruct (e c) eqn:H
  | |- context [if ?b then _ else _] =>
      let H := fresh "Hb" in destruct b eqn:H
  end.

(** Run [Connect] from each state along each path through it. *)
Ltac conn_contract :=
  let cfg := fresh "cfg" in
  let env := fresh "env" in
  let n := fresh "n" in
  let t := fresh "t" in
  let st := fresh "st" in
  let f := fresh "f" in
  unfold connect_contract; simpl;
  intros cfg env [[n t st] f]; conn_unfold; destruct st; simpl;
  repeat (conn_step; simpl);
  (split; [eexists _, _; repeat split; reflexivity
          | repeat split; intros; (congruence || reflexivity)]).


(** ** The classifier of connection errors *)

Lemma string_app_cons (x : ascii) (a b : string) : String x a ++ b = String x (a ++ b).
Proof. reflexivity. Qed.

Lemma string_app_nil (b : string) : "" ++ b = b.
Proof. reflexivity. Qed.

Lemma string_app_assoc (a b c : string) : (a ++ b) ++ c = a ++ (b ++ c).
Proof.
  induction a as [|x a IH]; [reflexivity|].
  rewrite !string_app_cons. f_equal. exact IH.
Qed.

Lemma map_bytes_app (f : ascii -> ascii) (a b : string) :
  map_bytes f (a ++ b) = map_bytes f a ++ map_bytes f b.
Proof.
  induction a as [|x a IH]; [reflexivity|].
  rewrite string_app_cons. simpl. rewrite string_app_cons. f_equal. exact IH.
Qed.

(** A split of the image of a string is the image of a split. *)
Lemma map_bytes_app_inv (f : ascii -> ascii) (s a b : string) :
  map_bytes f s = a ++ b ->
  exists sa sb, s = sa ++ sb /\ map_bytes f sa = a /\ map_bytes f sb = b.
Proof.
  revert s. induction a as [|x a IH]; intros s H.
  - exists "", s. auto.
  - rewrite string_app_cons in H.
    destruct s as [|y s]; simpl in H; [discriminate|].
    injection H as Hx Hs. destruct (IH s Hs) as (sa & sb & -> & Ha & Hb).
    exists (String y sa), sb. simpl. rewrite Ha, Hx. auto.
Qed.

Lemma has_prefix_spec (s p : string) :
  has_prefix s p = true <-> exists b, s = p ++ b.
Proof.
  revert s. induction p as [|x p IH]; intros s; simpl.
  - split; [intros _; exists s; reflexivity | reflexivity].
  - destruct s as [|y s].
    + split; [discriminate|]. intros [b Hb]. discriminate.
    + destruct (Ascii.eqb_spec x y) as [->|Hne].
      * rewrite IH. split; intros [b Hb]; exists b.
        -- rewrite string_app_cons. congruence.
        -- rewrite string_app_cons in Hb. congruence.
      * split; [discriminate|]. intros [b Hb].
        rewrite string_app_cons in Hb. congruence.
Qed.

Lemma Contains_spec (s sub : string) :
  Contains s sub = true <-> exists a b, s = a ++ sub ++ b.
Proof.
  induction s as [|x s IH]; simpl.
  - rewrite orb_false_r, has_prefix_spec. split.
    + intros [b Hb]. exists "", b. exact Hb.
    + intros (a & b & H). destruct a; [eauto|discriminate].
  - rewrite orb_true_iff, has_prefix_spec, IH. split.
    + intros [[b Hb]|(a & b & Hab)].
      * exists "", b. exact Hb.
      * exists (String x a), b. rewrite string_app_cons. by rewrite Hab.
    + intros (a & b & H). destruct a as [|y a].
      * left. eauto.
      * right. rewrite string_app_cons in H. injection H as _ H. eauto.
Qed.

Lemma keywords_lower (kw : string) :
  In kw keywords -> map_bytes lower_byte kw = kw.
Proof.
  unfold keywords. simpl. intros H.
  repeat (destruct H as [<-|H]; [reflexivity|]). destruct H.
Qed.

Lemma Contains_lower_nocase (msg kw : string) :
  map_bytes lower_byte kw = kw ->
  Contains (map_bytes lower_byte msg) kw = true <-> contains_nocase msg kw.
Proof.
  intros Hkw. rewrite Contains_spec. unfold contains_nocase. split.
  - intros (a & b & H).
    apply map_bytes_app_inv in H as (pre & rest & -> & Ha & H).
    apply map_bytes_app_inv in H as (mid & post & -> & Hm & Hb).
    exists pre, mid, post. split; [reflexivity|]. congruence.
  - intros (pre & mid & post & -> & Hm).
    exists (map_bytes lower_byte pre), (map_bytes lower_byte post).
    rewrite !map_bytes_app. congruence.
Qed.

(** C6.  [isConnectionError] answers false for nil; for an error it answers
    true exactly when the lower-cased message contains one of the seven
    keywords, which for an ASCII message is to say that the message contains
    a keyword up to the case of letters; "connection refused" and "EOF" are
    connection errors and "some other error" is not. *)
Theorem isConnectionError_classifies (unicode_ToLower : string -> string) :
  isConnectionError unicode_ToLower None = false /\
  (forall e,
      isConnectionError unicode_ToLower (Some e) = true <->
      exists kw, In kw keywords /\
                 Contains (ToLower unicode_ToLower (Error e)) kw = true) /\
  (forall e,
      isASCII (Error e) = true ->
      isConnectionError unicode_ToLower (Some e) = true <->
      exists kw, In kw keywords /\ contains_nocase (Error e) kw) /\
  keywords = [ "connection refused"; "connection reset"; "broken pipe";
               "no such host"; "timeout"; "eof"; "closed" ] /\
  isConnectionError unicode_ToLower (Some (errorString "connection refused")) = true /\
  isConnectionError unicode_ToLower (Some (errorString "EOF")) = true /\
  isConnectionError unicode_ToLower (Some (errorString "some other error")) = false.
Proof.
  assert (Hgen : forall e,
      isConnectionError unicode_ToLower (Some e) = true <->
      exists kw, In kw keywords /\
                 Contains (ToLower unicode_ToLower (Error e)) kw = true).
  { intros e. unfold isConnectionError. apply existsb_exists. }
  split; [reflexivity|]. split; [exact Hgen|]. split; [|repeat split].
  intros e Hascii. rewrite Hgen. unfold ToLower. rewrite Hascii.
  split; intros (kw & Hin & H); exists kw; (split; [exact Hin|]);
    apply (Contains_lower_nocase _ _ (keywords_lower kw Hin)); exact H.
Qed.

(** ** [Reconnectable] *)

Lemma wrap_int_id (z : Z) : is_int z -> wrap_int z = z.
Proof.
  unfold is_int, wrap_int, int_min, int_max, int_bits. intros H.
  rewrite Z.mod_small; lia.
Qed.

Lemma wrap_int_range (z : Z) : is_int (wrap_int z).
Proof.
  unfold is_int, wrap_int, int_min, int_max, int_bits.
  pose proof (Z.mod_pos_bound (z + 2 ^ (64 - 1)) (2 ^ 64)). lia.
Qed.

Lemma attempts_app (a b : list Call) : attempts (a ++ b) = (attempts a + attempts b)%nat.
Proof. unfold attempts. by rewrite List.filter_app, length_app. Qed.

Lemma last_failure_app (a b : list Call) :
  last_failure (a ++ b) = last_or (last_failure a) b.
Proof.
  unfold last_or. induction a as [|c a IH]; simpl.
  - by destruct (last_failure b).
  - rewrite IH. destruct (last_failure b); [reflexivity|].
    destruct (last_failure a); reflexivity.
Qed.

Section Retry.

Context {W : Type}.
Variable scale : Z -> float -> Z.
Variable inner : Methods W.
Variable cfg : ReconnectConfig.
Variable ctx : Context.

Variable Inv : W -> Prop.

(** While the wrapped [Connect] fails and the context stays open, [j] more
    iterations take the loop from attempt [a] to attempt [a + j]. *)
Lemma retry_loop_failing (j : nat) :
  fails_under inner Inv ->
  forall a interval lastErr w tr fuel,
    Inv w ->
    0 <= a -> a + Z.of_nat j <= MaxRetries cfg + 1 -> a + Z.of_nat j <= int_max ->
    (forall i, a <= i < a + Z.of_nat j -> 0 < i -> Done_before ctx i = false) ->
    exists interval' w' tr',
      retry_loop scale inner cfg (j + fuel) ctx a interval lastErr w tr =
        retry_loop scale inner cfg fuel ctx (a + Z.of_nat j) interval'
          (last_or lastErr tr') w' (tr ++ tr') /\
      Inv w' /\
      attempts tr' = j /\
      (0 < j -> last_failure tr' <> None)%nat /\
      waits_and_failures tr'.
Proof.
  intros Hfail. induction j as [|j IH]; intros a interval lastErr w tr fuel Hw Ha Hn Hmax Hctx.
  - exists interval, w, []. rewrite Z.add_0_r, app_nil_r. unfold last_or. simpl.
    repeat split; [done | lia | constructor].
  - simpl retry_loop.
    assert (Hle : (a <=? MaxRetries cfg) = true) by (apply Z.leb_le; lia).
    rewrite Hle.
    assert (Hd : (0 <? a) && Done_before ctx a = false).
    { destruct (0 <? a) eqn:H0; [|reflexivity]. apply Z.ltb_lt in H0.
      simpl. apply Hctx; lia. }
    rewrite Hd.
    set (step := if 0 <? a then _ else _).
    destruct step as [interval1 tr1] eqn:Hstep.
    assert (Htr1 : exists pre, tr1 = (tr ++ pre)%list /\ attempts pre = 0%nat /\
                               last_failure pre = None /\ waits_and_failures pre).
    { subst step. destruct (0 <? a); injection Hstep as _ <-.
      - exists [Sleep interval]. repeat split. repeat constructor.
      - exists []. rewrite app_nil_r. repeat split. constructor. }
    destruct Htr1 as (pre & -> & Hpre0 & Hprel & Hprew).
    destruct (Hfail ctx w Hw) as [Hne Hw1].
    destruct (Connect inner ctx w) as [[e|] w1]; [|done]. simpl in Hw1.
    rewrite (wrap_int_id (a + 1)) by (unfold is_int, int_min, int_bits; simpl; lia).
    destruct (IH (a + 1) interval1 (Some e) w1 ((tr ++ pre) ++ [CallConnect (Some e)])%list fuel)
      as (interval' & w' & tr' & Heq & Hw' & Hatt & Hlast & Hwf); try lia; try done.
    { intros i Hi H0. apply Hctx; lia. }
    exists interval', w', (pre ++ CallConnect (Some e) :: tr')%list.
    rewrite Heq. replace (a + 1 + Z.of_nat j) with (a + Z.of_nat (S j)) by lia.
    repeat split; [|done|..].
    + f_equal.
      * unfold last_or. rewrite last_failure_app. unfold last_or. simpl.
        destruct (last_failure tr'); reflexivity.
      * rewrite <- !app_assoc. reflexivity.
    + rewrite attempts_app, Hpre0. unfold attempts in *. simpl. by rewrite Hatt.
    + intros _. rewrite last_failure_app. unfold last_or. simpl.
      destruct (last_failure tr'); discriminate.
    + unfold waits_and_failures in *. apply Forall_app. split; [done|].
      constructor; done.
Qed.

End Retry.

Lemma Errorf_w_wraps (prefix : string) (e : error) :
  Error (Errorf_w prefix (Some e)) = prefix ++ Error e /\
  errors_Unwrap (Errorf_w prefix (Some e)) = Some e.
Proof. split; reflexivity. Qed.

Lemma Errorf_w_nil (prefix : string) :
  Error (Errorf_w prefix None) = prefix ++ "%!w(<nil>)" /\
  errors_Unwrap (Errorf_w prefix None) = None.
Proof. split; reflexivity. Qed.

(** C1, as amended.  With [MaxRetries = n], [0 <= n] below the largest
    [int], and a context that is never cancelled: over a resource whose
    [Connect] keeps failing, [Reconnectable.Connect] makes exactly [n + 1]
    attempts and returns an error that wraps the last failure and states the
    count [n + 1]; over a resource whose first [Connect] succeeds it makes
    that one attempt and returns nil. *)
Theorem Connect_attempts {W : Type} (scale : Z -> float -> Z) (inner : Methods W)
    (cfg : ReconnectConfig) (ctx : Context) (w : W) (fuel : nat) :
  0 <= MaxRetries cfg < int_max ->
  (forall k, Done_before ctx k = false) ->
  (Z.to_nat (MaxRetries cfg) + 2 <= fuel)%nat ->
  (forall Inv : W -> Prop,
      fails_under inner Inv -> Inv w ->
      exists err e w' tr,
        Reconnectable_Connect scale inner cfg fuel ctx w = Some (Some err, w', tr) /\
        attempts tr = Z.to_nat (MaxRetries cfg + 1) /\
        last_failure tr = Some e /\
        errors_Unwrap err = Some e /\
        Error err =
          "connect failed after " ++ itoa (MaxRetries cfg + 1) ++ " attempts: " ++ Error e) /\
  (fst (Connect inner ctx w) = None ->
     Reconnectable_Connect scale inner cfg fuel ctx w =
       Some (None, snd (Connect inner ctx w), [CallConnect None])).
Proof.
  intros Hn Hctx Hfuel. split.
  - intros Inv Hfail Hw.
    unfold Reconnectable_Connect, connectWithRetry.
    set (j := Z.to_nat (MaxRetries cfg + 1)).
    destruct (retry_loop_failing scale inner cfg ctx Inv j Hfail 0 (InitialInterval cfg)
                None w [] (fuel - j)%nat Hw)
      as (interval' & w' & tr' & Heq & _ & Hatt & Hlast & _); try lia.
    { intros i _ _. apply Hctx. }
    replace (j + (fuel - j))%nat with fuel in Heq by lia.
    rewrite Heq. clear Heq.
    destruct (fuel - j)%nat as [|fuel'] eqn:Hf; [lia|]. simpl.
    replace (0 + Z.of_nat j <=? MaxRetries cfg) with false
      by (symmetry; apply Z.leb_gt; lia).
    unfold last_or. destruct (last_failure tr') as [e|] eqn:He; [|exfalso; apply Hlast; [lia|done]].
    rewrite wrap_int_id by (unfold is_int, int_min, int_bits; simpl; lia).
    eexists _, e, w', tr'. split; [reflexivity|].
    repeat split; try done.
    simpl. by rewrite !string_app_assoc.
  - intros Hok. unfold Reconnectable_Connect, connectWithRetry.
    destruct fuel as [|fuel']; [lia|]. simpl.
    replace (0 <=? MaxRetries cfg) with true by (symmetry; apply Z.leb_le; lia).
    destruct (Connect inner ctx w) as [[e|] w1]; [discriminate|]. reflexivity.
Qed.

(** The mock's [Connect] fails for as long as [connectErr] is set. *)
Lemma mock_fails : fails_under mock (fun m => connectErr m <> None).
Proof.
  intros c m Hm. simpl. unfold mock_Connect.
  destruct (connectErr m) as [e|] eqn:He; [|done]. simpl. split; congruence.
Qed.

(** The package's test: [MaxRetries = 2] over the failing test double gives
    three attempts. *)
Lemma Connect_attempts_witness :
  exists err w' tr,
    Reconnectable_Connect double mock (test_config 2) 4 Background
      (failing "connection refused") = Some (Some err, w', tr) /\
    attempts tr = 3%nat /\
    Error err = "connect failed after 3 attempts: connection refused".
Proof.
  destruct (Connect_attempts double mock (test_config 2) Background
              (failing "connection refused") 4) as [H _].
  - unfold int_max, int_bits. simpl. lia.
  - reflexivity.
  - simpl. lia.
  - destruct (H _ mock_fails) as (err & e & w' & tr & Heq & Hatt & Hlast & Hun & Herr).
    + discriminate.
    + exists err, w', tr. split; [exact Heq|]. split; [exact Hatt|].
      rewrite Herr. vm_compute in Heq. injection Heq as <- <- <-.
      vm_compute in Hun. injection Hun as <-. reflexivity.
Defined.

Lemma retry_loop_MaxInt (fuel : nat) :
  forall a interval lastErr m tr,
    is_int a -> connectErr m <> None ->
    retry_loop double mock (test_config int_max) fuel Background a interval lastErr m tr = None.
Proof.
  induction fuel as [|fuel IH]; intros a interval lastErr m tr Ha Hm; [reflexivity|].
  cbn [retry_loop].
  replace (a <=? MaxRetries (test_config int_max)) with true
    by (symmetry; apply Z.leb_le; apply Ha).
  cbn [Done_before Background]. rewrite andb_false_r.
  destruct (if 0 <? a then _ else _) as [interval' tr'].
  cbn [Connect mock]. unfold mock_Connect.
  destruct (connectErr m) as [e|] eqn:He; [|done].
  apply IH; [apply wrap_int_range|]. simpl. congruence.
Qed.

(** C1 as stated fails at the largest [int]: the loop condition
    [attempt <= MaxRetries] then holds for every [attempt], and over a
    resource that keeps failing [Connect] does not return. *)
Lemma Connect_MaxInt_never_returns :
  ~ exists fuel res,
      Reconnectable_Connect double mock (test_config int_max) fuel Background
        (failing "connection refused") = Some res.
Proof.
  intros (fuel & res & H).
  unfold Reconnectable_Connect, connectWithRetry in H.
  rewrite retry_loop_MaxInt in H; [discriminate| |discriminate].
  unfold is_int, int_min, int_max, int_bits. simpl. lia.
Qed.

(** C10, as amended.  [NewReconnectable] keeps a negative [MaxRetries] as it
    is, and [Connect] then calls the wrapped resource not at all and returns
    an error that wraps nothing and reads "connect failed after k attempts"
    with [k = MaxRetries + 1], which is 0 for [MaxRetries = -1] and negative
    below that. *)
Theorem Connect_negative_MaxRetries {W : Type} (scale : Z -> float -> Z)
    (inner : Methods W) (cfg : ReconnectConfig) (ctx : Context) (w : W) (fuel : nat) :
  int_min <= MaxRetries cfg < 0 ->
  (1 <= fuel)%nat ->
  (forall s, exists config,
      NewReconnectable s cfg = Reconnectable s config /\
      MaxRetries config = MaxRetries cfg) /\
  exists err,
    Reconnectable_Connect scale inner cfg fuel ctx w = Some (Some err, w, []) /\
    attempts [] = 0%nat /\
    errors_Unwrap err = None /\
    Error err =
      "connect failed after " ++ itoa (MaxRetries cfg + 1) ++ " attempts: %!w(<nil>)" /\
    (MaxRetries cfg = -1 -> Error err = "connect failed after 0 attempts: %!w(<nil>)").
Proof.
  intros Hn Hfuel. split.
  - intros s. unfold NewReconnectable.
    destruct (Multiplier cfg <=? 0)%float; eexists; split; reflexivity.
  - unfold Reconnectable_Connect, connectWithRetry.
    destruct fuel as [|fuel']; [lia|]. cbn [retry_loop].
    replace (0 <=? MaxRetries cfg) with false by (symmetry; apply Z.leb_gt; lia).
    rewrite wrap_int_id
      by (unfold is_int, int_min, int_max, int_bits in *; simpl in *; lia).
    eexists. split; [reflexivity|]. split; [reflexivity|]. split; [reflexivity|].
    split.
    + simpl. by rewrite !string_app_assoc.
    + intros ->. reflexivity.
Qed.

(** [MaxRetries = -1] over the test double: no attempt, "0 attempts". *)
Lemma Connect_negative_MaxRetries_witness :
  exists err,
    Reconnectable_Connect double mock (test_config (-1)) 1 Background newMockStorage =
      Some (Some err, newMockStorage, []) /\
    Error err = "connect failed after 0 attempts: %!w(<nil>)".
Proof.
  destruct (Connect_negative_MaxRetries double mock (test_config (-1)) Background
              newMockStorage 1) as [_ (err & Heq & _ & _ & _ & Hzero)].
  - unfold int_min, int_bits. simpl. lia.
  - lia.
  - exists err. split; [exact Heq|]. apply Hzero. reflexivity.
Defined.

(** C10 as stated fails below -1: the count in the message is
    [MaxRetries + 1], not 0. *)
Lemma Connect_negative_count_not_zero :
  ~ exists fuel err w tr,
      Reconnectable_Connect double mock (test_config (-2)) fuel Background newMockStorage =
        Some (Some err, w, tr) /\
      Contains (Error err) "connect failed after 0 attempts" = true.
Proof.
  intros (fuel & err & w & tr & H & Hc).
  destruct fuel as [|fuel]; [discriminate|].
  vm_compute in H. injection H as <- _ _. vm_compute in Hc. discriminate.
Qed.

(** C8.  When the [select] before attempt [a] receives from [ctx.Done()],
    the loop returns [ctx.Err()] at once: no call on the wrapped resource, the
    world as it was.  So over a resource that keeps failing, a context
    cancelled during the wait before attempt [a] ends [Connect] with the
    context's error after exactly the [a] attempts already made. *)
Theorem Connect_cancelled_during_wait {W : Type} (scale : Z -> float -> Z)
    (inner : Methods W) (cfg : ReconnectConfig) (ctx : Context) (a : Z) :
  0 < a <= MaxRetries cfg ->
  Done_before ctx a = true ->
  (forall fuel interval lastErr w tr,
      retry_loop scale inner cfg (S fuel) ctx a interval lastErr w tr =
        Some (Err ctx, w, (tr ++ [Cancelled interval])%list)) /\
  (forall (Inv : W -> Prop) w fuel,
      fails_under inner Inv -> Inv w ->
      a <= int_max ->
      (forall i, 0 < i < a -> Done_before ctx i = false) ->
      (Z.to_nat a + 1 <= fuel)%nat ->
      exists w' tr interval,
        Reconnectable_Connect scale inner cfg fuel ctx w =
          Some (Err ctx, w', (tr ++ [Cancelled interval])%list) /\
        attempts (tr ++ [Cancelled interval]) = Z.to_nat a /\
        waits_and_failures tr).
Proof.
  intros Ha Hdone.
  assert (Hstep : forall fuel interval lastErr w tr,
      retry_loop scale inner cfg (S fuel) ctx a interval lastErr w tr =
        Some (Err ctx, w, (tr ++ [Cancelled interval])%list)).
  { intros fuel interval lastErr w tr. cbn [retry_loop].
    replace (a <=? MaxRetries cfg) with true by (symmetry; apply Z.leb_le; lia).
    replace (0 <? a) with true by (symmetry; apply Z.ltb_lt; lia).
    rewrite Hdone. reflexivity. }
  split; [exact Hstep|].
  intros Inv w fuel Hfail Hw Hmax Hctx Hfuel.
  unfold Reconnectable_Connect, connectWithRetry.
  set (j := Z.to_nat a).
  destruct (retry_loop_failing scale inner cfg ctx Inv j Hfail 0 (InitialInterval cfg)
              None w [] (fuel - j)%nat Hw)
    as (interval' & w' & tr' & Heq & _ & Hatt & _ & Hwf); try lia.
  { intros i Hi H0. apply Hctx. lia. }
  replace (j + (fuel - j))%nat with fuel in Heq by lia.
  rewrite Heq. clear Heq.
  destruct (fuel - j)%nat as [|fuel'] eqn:Hf; [lia|].
  replace (0 + Z.of_nat j) with a by lia.
  rewrite Hstep. exists w', tr', interval'. simpl.
  split; [reflexivity|]. split; [|exact Hwf].
  rewrite attempts_app, Hatt. unfold attempts. simpl. lia.
Qed.

(** The failing test double, the context cancelled during the second wait:
    two attempts were made, the third is not. *)
Lemma Connect_cancelled_during_wait_witness :
  exists w' tr,
    Reconnectable_Connect double mock (test_config 5) 3 (cancelled_before 2)
      (failing "connection refused") = Some (Some (errorString "context canceled"), w', tr) /\
    attempts tr = 2%nat /\ connectCount w' = 2.
Proof.
  destruct (Connect_cancelled_during_wait double mock (test_config 5) (cancelled_before 2) 2)
    as [_ H].
  - simpl. lia.
  - reflexivity.
  - destruct (H _ (failing "connection refused") 3%nat mock_fails)
      as (w' & tr & interval & Heq & Hatt & _).
    + discriminate.
    + unfold int_max, int_bits. simpl. lia.
    + intros i Hi. simpl. apply Z.eqb_neq. lia.
    + simpl. lia.
    + exists w', (tr ++ [Cancelled interval])%list.
      split; [exact Heq|]. split; [exact Hatt|].
      vm_compute in Heq. by injection Heq as <- _.
Defined.

(** *** [Reconnectable.Ping] *)

(** The retry loop only connects and waits. *)
Lemma retry_loop_calls {W : Type} (scale : Z -> float -> Z) (inner : Methods W)
    (cfg : ReconnectConfig) (ctx : Context) (fuel : nat) :
  forall a interval lastErr w tr res w' tr',
    retry_loop scale inner cfg fuel ctx a interval lastErr w tr = Some (res, w', tr') ->
    pings tr' = pings tr /\ closes tr' = closes tr.
Proof.
  induction fuel as [|fuel IH]; intros a interval lastErr w tr res w' tr' H; [discriminate|].
  cbn [retry_loop] in H.
  destruct (a <=? MaxRetries cfg); [|by injection H as _ _ <-].
  destruct ((0 <? a) && Done_before ctx a).
  { injection H as _ _ <-. unfold pings, closes. rewrite !List.filter_app, !length_app.
    simpl. lia. }
  destruct (if 0 <? a then _ else _) as [interval1 tr1] eqn:Hstep.
  assert (Htr1 : pings tr1 = pings tr /\ closes tr1 = closes tr).
  { destruct (0 <? a); injection Hstep as _ <-; [|done].
    unfold pings, closes. rewrite !List.filter_app, !length_app. simpl. lia. }
  destruct (Connect inner ctx w) as [[e|] w1].
  - apply IH in H as [Hp Hc]. rewrite Hp, Hc. destruct Htr1 as [<- <-].
    unfold pings, closes. rewrite !List.filter_app, !length_app. simpl. lia.
  - injection H as _ _ <-. destruct Htr1 as [<- <-].
    unfold pings, closes. rewrite !List.filter_app, !length_app. simpl. lia.
Qed.

(** Below the largest [int] the retry loop returns, whatever the wrapped
    resource and the context do: [MaxRetries + 1] iterations and the exit
    test. *)
Lemma retry_loop_returns {W : Type} (scale : Z -> float -> Z) (inner : Methods W)
    (cfg : ReconnectConfig) (ctx : Context) (j : nat) :
  MaxRetries cfg < int_max ->
  forall fuel a interval lastErr w tr,
    0 <= a -> MaxRetries cfg + 1 - a <= Z.of_nat j -> (j + 1 <= fuel)%nat ->
    retry_loop scale inner cfg fuel ctx a interval lastErr w tr <> None.
Proof.
  intros Hmax. induction j as [|j IH]; intros fuel a interval lastErr w tr Ha Hj Hfuel;
    (destruct fuel as [|fuel]; [lia|]); cbn [retry_loop].
  - replace (a <=? MaxRetries cfg) with false by (symmetry; apply Z.leb_gt; lia). done.
  - destruct (a <=? MaxRetries cfg) eqn:Hle; [|done]. apply Z.leb_le in Hle.
    destruct ((0 <? a) && Done_before ctx a); [done|].
    destruct (if 0 <? a then _ else _) as [interval1 tr1].
    destruct (Connect inner ctx w) as [[e|] w1]; [|done].
    rewrite wrap_int_id by (unfold is_int, int_min, int_bits; simpl; lia).
    apply IH; lia.
Qed.

(** X2.  With [MaxRetries] below the largest [int], [Reconnectable.Connect]
    returns, whatever the wrapped resource and the context do. *)
Theorem Connect_returns {W : Type} (scale : Z -> float -> Z) (inner : Methods W)
    (cfg : ReconnectConfig) (ctx : Context) (w : W) (fuel : nat) :
  MaxRetries cfg < int_max ->
  (Z.to_nat (MaxRetries cfg + 1) + 1 <= fuel)%nat ->
  Reconnectable_Connect scale inner cfg fuel ctx w <> None.
Proof.
  intros Hmax Hfuel. unfold Reconnectable_Connect, connectWithRetry.
  apply (retry_loop_returns scale inner cfg ctx (Z.to_nat (MaxRetries cfg + 1)) Hmax); lia.
Qed.

(** The test's configuration over the test double. *)
Lemma Connect_returns_witness :
  Reconnectable_Connect double mock (test_config 2) 4 Background newMockStorage <> None.
Proof.
  apply Connect_returns.
  - unfold int_max, int_bits. simpl. lia.
  - simpl. lia.
Defined.


(** ** Runs of [Reconnectable.Connect] *)

Lemma phase_after_snoc (p : Phase) (tr : list Call) (c : Call) :
  phase_after p (tr ++ [c]) =
    match phase_after p tr with Some p' => phase_step p' c | None => None end.
Proof.
  revert p. induction tr as [|x tr IH]; intros p; simpl.
  - by destruct (phase_step p c).
  - destruct (phase_step p x); [apply IH | reflexivity].
Qed.

Lemma waits_snoc (tr : list Call) (c : Call) :
  waits (tr ++ [c]) = (waits tr ++ waits [c])%list.
Proof.
  induction tr as [|x tr IH]; [reflexivity|].
  destruct x; simpl; rewrite IH; reflexivity.
Qed.

Lemma last_failure_snoc (tr : list Call) (c : Call) :
  last_failure (tr ++ [c]) =
    match c with CallConnect (Some e) => Some e | _ => last_failure tr end.
Proof.
  rewrite last_failure_app. unfold last_or. simpl.
  destruct c as [[e|]| | | |]; try reflexivity.
Qed.

Section Runs.

Context {W : Type}.
Variable scale : Z -> float -> Z.
Variable inner : Methods W.
Variable cfg : ReconnectConfig.
Variable ctx : Context.

Lemma retry_loop_run (fuel : nat) :
  MaxRetries cfg < int_max ->
  forall a interval lastErr w tr res w' tr',
    at_head a lastErr tr ->
    attempts tr = Z.to_nat a ->
    a <= Z.max 0 (MaxRetries cfg + 1) ->
    retry_loop scale inner cfg fuel ctx a interval lastErr w tr = Some (res, w', tr') ->
    retry_shaped tr' = true /\
    res = outcome_of_run cfg ctx tr' /\
    (attempts tr' <= Z.to_nat (MaxRetries cfg + 1))%nat.
Proof.
  intros Hmax. induction fuel as [|fuel IH];
    intros a interval lastErr w tr res w' tr' Hhead Hatt Hle H; [discriminate|].
  assert (Ha0 : 0 <= a) by (destruct Hhead as [(-> & _)|(? & _)]; lia).
  cbn [retry_loop] in H.
  destruct (a <=? MaxRetries cfg) eqn:Hcmp.
  - apply Z.leb_le in Hcmp.
    assert (Hphase : phase_after AtStart tr = Some (if 0 <? a then AfterFailure else AtStart)).
    { destruct Hhead as [(-> & -> & _)|(Hpos & Hp & _)]; [reflexivity|].
      apply Z.ltb_lt in Hpos. by rewrite Hpos. }
    destruct ((0 <? a) && Done_before ctx a) eqn:Hsel.
    + (* cancelled during the wait *)
      apply andb_true_iff in Hsel as [Hpos _]. rewrite Hpos in Hphase.
      injection H as <- <- <-.
      unfold retry_shaped, outcome_of_run.
      rewrite phase_after_snoc, Hphase, last_snoc. simpl.
      repeat split.
      rewrite attempts_app, Hatt. unfold attempts. simpl. lia.
    + set (step := if 0 <? a then _ else _) in H.
      destruct step as [interval1 tr1] eqn:Hstep.
      assert (Htr1 : phase_after AtStart tr1 = Some (if 0 <? a then AfterWait else AtStart) /\
                     attempts tr1 = attempts tr /\
                     last_failure tr1 = last_failure tr).
      { subst step. destruct (0 <? a); injection Hstep as _ <-; [|done].
        rewrite phase_after_snoc, Hphase, attempts_app, last_failure_snoc. simpl.
        unfold attempts. simpl. repeat split; lia. }
      destruct Htr1 as (Hp1 & Hatt1 & Hlf1).
      destruct (Connect inner ctx w) as [[e|] w1].
      * apply IH in H; [exact H| | |].
        -- right. rewrite wrap_int_id by (unfold is_int, int_min, int_bits; simpl; lia).
           split; [lia|]. rewrite phase_after_snoc, Hp1, last_failure_snoc.
           split; [by destruct (0 <? a)|]. split; [reflexivity|]. eauto.
        -- rewrite wrap_int_id by (unfold is_int, int_min, int_bits; simpl; lia).
           rewrite attempts_app, Hatt1, Hatt. unfold attempts. simpl. lia.
        -- rewrite wrap_int_id by (unfold is_int, int_min, int_bits; simpl; lia). lia.
      * injection H as <- <- <-.
        unfold retry_shaped, outcome_of_run.
        rewrite phase_after_snoc, Hp1, last_snoc.
        split; [by destruct (0 <? a)|]. split; [reflexivity|].
        rewrite attempts_app, Hatt1, Hatt. unfold attempts. simpl. lia.
  - apply Z.leb_gt in Hcmp. injection H as <- <- <-.
    unfold retry_shaped, outcome_of_run.
    destruct Hhead as [(-> & -> & ->)|(Hpos & Hp & -> & tr0 & e & ->)].
    + simpl. repeat split. lia.
    + rewrite Hp, last_snoc. repeat split. lia.
Qed.

End Runs.

Lemma backoff_capped_snoc (cfg : ReconnectConfig) (ds : list Z) (d : Z) :
  backoff_capped cfg ds ->
  (ds = [] -> d = InitialInterval cfg) ->
  (ds <> [] -> d <= MaxInterval cfg) ->
  backoff_capped cfg (ds ++ [d]).
Proof.
  destruct ds as [|d0 ds]; simpl.
  - intros _ H _. split; [by apply H | constructor].
  - intros [-> Hall] _ H. split; [reflexivity|].
    apply Forall_app. split; [exact Hall|]. constructor; [by apply H | constructor].
Qed.

Lemma retry_loop_waits {W : Type} (scale : Z -> float -> Z) (inner : Methods W)
    (cfg : ReconnectConfig) (ctx : Context) (fuel : nat) :
  forall a interval lastErr w tr res w' tr',
    backoff_capped cfg (waits tr) ->
    (waits tr = [] -> interval = InitialInterval cfg) ->
    (waits tr <> [] -> interval <= MaxInterval cfg) ->
    retry_loop scale inner cfg fuel ctx a interval lastErr w tr = Some (res, w', tr') ->
    backoff_capped cfg (waits tr').
Proof.
  induction fuel as [|fuel IH];
    intros a interval lastErr w tr res w' tr' Hcap Hfirst Hlater H; [discriminate|].
  cbn [retry_loop] in H.
  destruct (a <=? MaxRetries cfg); [|by injection H as _ _ <-].
  destruct ((0 <? a) && Done_before ctx a).
  { injection H as _ _ <-. rewrite waits_snoc. simpl.
    by apply backoff_capped_snoc. }
  set (step := if 0 <? a then _ else _) in H.
  destruct step as [interval1 tr1] eqn:Hstep.
  assert (Hinv : backoff_capped cfg (waits tr1) /\
                 (waits tr1 = [] -> interval1 = InitialInterval cfg) /\
                 (waits tr1 <> [] -> interval1 <= MaxInterval cfg)).
  { subst step. destruct (0 <? a); injection Hstep as <- <-; [|done].
    rewrite waits_snoc. simpl. split; [by apply backoff_capped_snoc|]. split.
    - intros Hnil. by apply app_eq_nil in Hnil as [_ ?].
    - intros _. destruct (MaxInterval cfg <? scale interval (Multiplier cfg)) eqn:Hlt.
      + lia.
      + apply Z.ltb_ge in Hlt. exact Hlt. }
  destruct Hinv as (Hcap1 & Hfirst1 & Hlater1).
  destruct (Connect inner ctx w) as [[e|] w1].
  - apply IH in H; [exact H|..]; rewrite waits_snoc, app_nil_r; assumption.
  - injection H as _ _ <-. by rewrite waits_snoc, app_nil_r.
Qed.

(** X4.  Below the largest [int] of [MaxRetries], whatever the wrapped
    resource and the context do, a [Connect] that returns has made at most
    [MaxRetries + 1] attempts, the first without a wait, every later one
    after exactly one wait, and none after a success or a cancellation. *)
Theorem Connect_attempts_bounded_and_spaced {W : Type} (scale : Z -> float -> Z)
    (inner : Methods W) (cfg : ReconnectConfig) (ctx : Context) (w w' : W)
    (fuel : nat) (res : option error) (tr : list Call) :
  MaxRetries cfg < int_max ->
  Reconnectable_Connect scale inner cfg fuel ctx w = Some (res, w', tr) ->
  (attempts tr <= Z.to_nat (MaxRetries cfg + 1))%nat /\
  retry_shaped tr = true.
Proof.
  intros Hmax H. unfold Reconnectable_Connect, connectWithRetry in H.
  apply (retry_loop_run scale inner cfg ctx fuel Hmax) in H as (Hs & _ & Hb).
  - split; assumption.
  - left. auto.
  - reflexivity.
  - lia.
Qed.

(** The package's test run: three attempts, two waits between them. *)
Lemma Connect_attempts_bounded_and_spaced_witness :
  exists res w' tr,
    Reconnectable_Connect double mock (test_config 2) 4 Background
      (failing "connection refused") = Some (res, w', tr) /\
    (attempts tr <= 3)%nat /\ retry_shaped tr = true.
Proof.
  destruct (Reconnectable_Connect double mock (test_config 2) 4 Background
              (failing "connection refused")) as [[[res w'] tr]|] eqn:H.
  - exists res, w', tr. split; [reflexivity|].
    apply (Connect_attempts_bounded_and_spaced double mock (test_config 2) Background
             (failing "connection refused") w' 4 res tr); [|exact H].
    unfold int_max, int_bits. simpl. lia.
  - vm_compute in H. discriminate H.
Defined.

(** X5.  Below the largest [int] of [MaxRetries], what [Connect] returns is
    decided by the last thing it did: nil after a successful attempt, the
    context's error after a cancelled wait, and otherwise the
    retries-exhausted error around the last failure (around nothing when no
    attempt was made). *)
Theorem Connect_result_from_last_call {W : Type} (scale : Z -> float -> Z)
    (inner : Methods W) (cfg : ReconnectConfig) (ctx : Context) (w w' : W)
    (fuel : nat) (res : option error) (tr : list Call) :
  MaxRetries cfg < int_max ->
  Reconnectable_Connect scale inner cfg fuel ctx w = Some (res, w', tr) ->
  res = outcome_of_run cfg ctx tr.
Proof.
  intros Hmax H. unfold Reconnectable_Connect, connectWithRetry in H.
  apply (retry_loop_run scale inner cfg ctx fuel Hmax) in H as (_ & Hr & _).
  - exact Hr.
  - left. auto.
  - reflexivity.
  - lia.
Qed.

(** The first attempt succeeds: nil, read off the one call. *)
Lemma Connect_result_from_last_call_witness :
  outcome_of_run (test_config 2) Background [CallConnect None] = None.
Proof.
  symmetry.
  apply (Connect_result_from_last_call double mock (test_config 2) Background
           newMockStorage (snd (mock_Connect Background newMockStorage)) 4).
  - unfold int_max, int_bits. simpl. lia.
  - reflexivity.
Defined.

(** X6.  Whatever the configuration, the wrapped resource and the context,
    the first wait of a [Connect] lasts [InitialInterval], also when that
    exceeds [MaxInterval], and every later wait lasts at most
    [MaxInterval]. *)
Theorem Connect_backoff_capped {W : Type} (scale : Z -> float -> Z)
    (inner : Methods W) (cfg : ReconnectConfig) (ctx : Context) (w w' : W)
    (fuel : nat) (res : option error) (tr : list Call) :
  Reconnectable_Connect scale inner cfg fuel ctx w = Some (res, w', tr) ->
  backoff_capped cfg (waits tr).
Proof.
  intros H. unfold Reconnectable_Connect, connectWithRetry in H.
  apply retry_loop_waits in H; [exact H|done|done|done].
Qed.

(** Initial interval 1ms over the cap of 10ms, doubling: the waits of six
    failed attempts are 1, 2, 4, 8 and 10 ms. *)
Lemma Connect_backoff_capped_witness :
  exists res w' tr,
    Reconnectable_Connect double mock (test_config 5) 7 Background
      (failing "connection refused") = Some (res, w', tr) /\
    waits tr = [1000000; 2000000; 4000000; 8000000; 10000000] /\
    backoff_capped (test_config 5) (waits tr).
Proof.
  destruct (Reconnectable_Connect double mock (test_config 5) 7 Background
              (failing "connection refused")) as [[[res w'] tr]|] eqn:H.
  - exists res, w', tr. split; [reflexivity|]. split.
    + vm_compute in H. by injection H as _ _ <-.
    + apply (Connect_backoff_capped double mock (test_config 5) Background
               (failing "connection refused") w' 7 res tr H).
  - vm_compute in H. discriminate H.
Defined.

(** ** [Traced] *)

(** X7.  [Traced.Connect], [Ping] and [Close] return what the wrapped call
    returns and leave the world it leaves; each opens one span
    "storage.<Op>" before the call, tagged with the resource's name and type
    as answered before the call, sets its status once (Error, with the error
    recorded, exactly when the call failed) and ends it last. *)
Theorem Traced_spans_operation {W : Type} (inner : Methods W) (t : Tracer) :
  traces_call inner t "Connect" (Connect inner) (Traced_Connect inner t) /\
  traces_call inner t "Ping" (Ping inner) (Traced_Ping inner t) /\
  traces_call inner t "Close" (Close inner) (Traced_Close inner t).
Proof.
  split; [|split]; intros ctx w;
    unfold Traced_Connect, Traced_Ping, Traced_Close, startSpan, recordError;
    [destruct (Connect inner ctx w) as [[e|] w']
    |destruct (Ping inner ctx w) as [[e|] w']
    |destruct (Close inner ctx w) as [[e|] w']];
    simpl; repeat split; try reflexivity; try discriminate;
    try (intros H; injection H as ->; auto);
    intros H; repeat (destruct H as [H|H]; try congruence); destruct H.
Qed.

(** ** The manager: lookups and [CloseAll] *)

Section Manager_more.

Variable Quote : string -> string.

Lemma Register_named (s : Storage) (m : manager) :
  manager_named m -> manager_named (snd (manager_Register Quote s m)).
Proof.
  intros Hm. unfold manager_Register.
  destruct (storages m !! Storage_Name s) eqn:Hl; simpl; [exact Hm|].
  intros n s' H. simpl in H.
  destruct (decide (Storage_Name s = n)) as [<-|Hne].
  - rewrite lookup_insert_eq in H. congruence.
  - rewrite lookup_insert_ne in H by done. by apply Hm.
Qed.

Lemma register_all_invariants (ss : list Storage) (m : manager) :
  manager_wf m -> manager_named m ->
  manager_wf (register_all Quote ss m) /\ manager_named (register_all Quote ss m).
Proof.
  revert m. induction ss as [|s ss IH]; intros m Hwf Hn; [by split|].
  unfold register_all in *. simpl. apply IH.
  - by apply Register_wf.
  - by apply Register_named.
Qed.

Lemma NewManager_invariants : manager_wf NewManager /\ manager_named NewManager.
Proof.
  split; [split|].
  - constructor.
  - intros n. simpl. rewrite lookup_empty. split.
    + intros H. by apply not_elem_of_nil in H.
    + intros [x Hx]. discriminate.
  - intros n s H. simpl in H. by rewrite lookup_empty in H.
Qed.

Lemma register_all_Get (n : string) (ss : list Storage) (m : manager) :
  manager_Get n (register_all Quote ss m) =
    match manager_Get n m with
    | Some s => Some s
    | None => first_named n ss
    end.
Proof.
  revert m. induction ss as [|s ss IH]; intros m.
  - simpl. by destruct (manager_Get n m).
  - unfold register_all in *. simpl. rewrite IH. clear IH.
    unfold manager_Register, manager_Get, first_named. simpl.
    destruct (String.eqb_spec (Storage_Name s) n) as [->|Hne].
    + destruct (storages m !! n) as [s0|] eqn:Hl; simpl; rewrite ?Hl; [reflexivity|].
      by rewrite lookup_insert_eq.
    + destruct (storages m !! Storage_Name s) as [s0|] eqn:Hl; simpl; [reflexivity|].
      by rewrite lookup_insert_ne.
Qed.

End Manager_more.

(** X8.  After any sequence of [Register] calls on a new manager, [Get]
    answers for a name the first resource that was registered under it (a
    later one of the same name never replaces it), [MustGet] returns the same
    resource and panics exactly for a name that was never registered, and
    the names [List] answers are exactly the names [Get] finds. *)
Theorem Get_answers_first_registration (Quote : string -> string)
    (ss : list Storage) (n : string) :
  let m := register_all Quote ss NewManager in
  manager_Get n m = first_named n ss /\
  manager_MustGet Quote n m =
    match first_named n ss with
    | Some s => Returns s
    | None => Panics ("storage " ++ Quote n ++ " not found")
    end /\
  (n ∈ manager_List m <-> is_Some (manager_Get n m)) /\
  (forall s, manager_Get n m = Some s -> Storage_Name s = n /\ In s ss).
Proof.
  intros m.
  assert (HG : manager_Get n m = first_named n ss).
  { unfold m. rewrite register_all_Get. unfold manager_Get. simpl.
    by rewrite lookup_empty. }
  destruct (register_all_invariants Quote ss NewManager) as [[_ Hkeys] Hnamed];
    try apply NewManager_invariants.
  split; [exact HG|]. split; [|split].
  - unfold manager_MustGet. by rewrite HG.
  - apply Hkeys.
  - intros s Hs. split; [by apply Hnamed|].
    rewrite HG in Hs. unfold first_named in Hs. by apply List.find_some in Hs as [? _].
Qed.

(** X9.  In whatever order Go ranges over the map, [GetByType] answers
    exactly the registered resources of the asked type: a resource is in the
    answer if and only if [Get] finds it under some name and its type is the
    one asked for, and two runs differ at most in the order of the answer. *)
Theorem GetByType_members (range range' : gmap string Storage -> list (string * Storage))
    (t : Kind) (m : manager) :
  (forall sm, range sm ≡ₚ map_to_list sm) ->
  (forall sm, range' sm ≡ₚ map_to_list sm) ->
  (forall s, s ∈ manager_GetByType range t m <->
             exists n, manager_Get n m = Some s /\ Storage_Type s = t) /\
  manager_GetByType range t m ≡ₚ manager_GetByType range' t m.
Proof.
  intros Hr Hr'. split.
  - intros s. unfold manager_GetByType, manager_Get. rewrite list_elem_of_fmap. split.
    + intros ([n s'] & -> & Hin). apply list_elem_of_filter in Hin as [Ht Hin].
      rewrite Hr in Hin. apply elem_of_map_to_list in Hin. eauto.
    + intros (n & Hn & Ht). exists (n, s). split; [reflexivity|].
      apply list_elem_of_filter. split; [exact Ht|].
      rewrite Hr. by apply elem_of_map_to_list.
  - unfold manager_GetByType. by rewrite Hr, Hr'.
Qed.

(** Two resources of type mysql and one of another type, as in the
    package's test. *)
Lemma GetByType_members_witness :
  let m := register_all id [Concrete 1 "mock1" "mysql"; Concrete 2 "mock2" "mysql";
                            Concrete 3 "mock3" "redis"] NewManager in
  Concrete 2 "mock2" "mysql" ∈ manager_GetByType map_to_list "mysql" m /\
  ~ Concrete 3 "mock3" "redis" ∈ manager_GetByType map_to_list "mysql" m.
Proof.
  intros m.
  destruct (GetByType_members map_to_list map_to_list "mysql" m) as [H _]; [done|done|].
  split.
  - apply H. exists "mock2". split; [|reflexivity].
    unfold m. rewrite register_all_Get. reflexivity.
  - intros Hin. apply H in Hin as (n & _ & Ht). discriminate Ht.
Defined.

Lemma CloseAll_fold {W : Type} (dispatch : Storage -> Methods W) (ctx : Context)
    (m : manager) (l : list string) :
  manager_named m ->
  (forall n, n ∈ l -> is_Some (storages m !! n)) ->
  forall w es tr,
    es = omap close_failure tr ->
    let '(w', es', tr') := fold_left (CloseAll_step dispatch ctx m) l (w, es, tr) in
    tr'.*1 = (tr.*1 ++ l)%list /\ es' = omap close_failure tr'.
Proof.
  intros Hnamed. induction l as [|n l IH]; intros Hin w es tr Hes; simpl.
  - by rewrite app_nil_r.
  - destruct (Hin n) as [s Hs]; [by left|].
    unfold manager_Get. rewrite Hs.
    destruct (Close (dispatch s) ctx w) as [err w1].
    specialize (IH (fun k Hk => Hin k (list_elem_of_further _ _ _ Hk)) w1
                   (match err with
                    | Some e => (es ++ [Errorf_w (Storage_Name s ++ ": ") (Some e)])%list
                    | None => es
                    end)
                   (tr ++ [(n, err)])%list).
    destruct (fold_left _ l _) as [[w' es'] tr'].
    destruct IH as [Hfst Hes'].
    + rewrite omap_app, <- Hes. simpl. rewrite (Hnamed n s Hs).
      destruct err; simpl; [reflexivity|by rewrite app_nil_r].
    + split; [|exact Hes']. rewrite Hfst, fmap_app, <- app_assoc. reflexivity.
Qed.

Lemma elem_of_rev_1 {A : Type} (x : A) (l : list A) : x ∈ rev l -> x ∈ l.
Proof. rewrite !list_elem_of_In. intros H. by apply List.in_rev. Qed.

Lemma errors_Join_Some (es : list error) (os : list (option error)) :
  es = omap id os -> errors_Join (List.map Some es) = errors_Join os.
Proof.
  intros ->. unfold errors_Join.
  assert (H : omap id (List.map Some (omap id os)) = omap id os).
  { induction os as [|[e|] os IH]; [reflexivity| |exact IH].
    change (e :: omap id (List.map Some (omap id os)) = e :: omap id os). by f_equal. }
  by rewrite H.
Qed.

(** X10.  On a manager built by [Register] calls, [CloseAll] closes every
    registered resource once, in the reverse of the order [List] answers, a
    failed close not keeping it from the next; it returns nil exactly when
    every close returned nil, and otherwise the join of the failures, each
    wrapped under its resource's name, in the order they happened. *)
Theorem CloseAll_reverse_order {W : Type} (Quote : string -> string)
    (dispatch : Storage -> Methods W) (ctx : Context) (ss : list Storage) (w : W) :
  let m := register_all Quote ss NewManager in
  let '(res, w', tr) := manager_CloseAll dispatch ctx m w in
  tr.*1 = rev (manager_List m) /\
  res = errors_Join (close_failure <$> tr) /\
  (res = None <-> Forall (fun c => snd c = None) tr) /\
  (forall j, res = Some j -> errs j = omap close_failure tr).
Proof.
  intros m. unfold manager_CloseAll.
  destruct (register_all_invariants Quote ss NewManager) as [[_ Hkeys] Hnamed];
    try apply NewManager_invariants.
  pose proof (CloseAll_fold dispatch ctx m (rev (order m)) Hnamed) as Hfold.
  specialize (Hfold (fun n Hn => proj1 (Hkeys n) (elem_of_rev_1 _ _ Hn)) w [] [] eq_refl).
  fold m. destruct (fold_left _ (rev (order m)) _) as [[w' es] tr].
  destruct Hfold as [Hfst Hes]. simpl in Hfst.
  assert (Hjoin : errors_Join (List.map Some es) = errors_Join (close_failure <$> tr)).
  { apply errors_Join_Some. rewrite Hes. clear.
    induction tr as [|[n [e|]] tr IH]; csimpl; [reflexivity| |exact IH]. by rewrite IH. }
  split; [exact Hfst|]. split; [exact Hjoin|]. rewrite Hjoin. unfold errors_Join.
  assert (Hom : omap id (close_failure <$> tr) = omap close_failure tr).
  { clear. induction tr as [|[n [e|]] tr IH]; csimpl; [reflexivity| |exact IH]. by rewrite IH. }
  rewrite Hom. split.
  - split.
    + intros Hnone. destruct (omap close_failure tr) eqn:Ho; [|discriminate].
      clear -Ho. induction tr as [|[n [e|]] tr IH]; csimpl in *; [constructor|discriminate|].
      constructor; [reflexivity|by apply IH].
    + intros Hall. replace (omap close_failure tr) with (@nil error); [reflexivity|].
      clear -Hall. induction Hall as [|[n r] tr Hr _ IH]; [reflexivity|].
      simpl in Hr. subst r. csimpl. exact IH.
  - intros j Hj. destruct (omap close_failure tr); [discriminate|]. by injection Hj as <-.
Qed.

(** ** [checkHealth] and the collector of pool statistics *)

Lemma Build_decorated (b : Builder) : selected b <> [] -> is_decorator (Build b) = true.
Proof.
  intros Hsel. destruct (Build_shape b) as (Hl & _ & _).
  destruct (Build b); [|reflexivity..]. simpl in Hl.
  destruct (selected b); [done|discriminate].
Qed.

(** X11.  [checkHealth] pings once and reports healthy exactly when the ping
    returned nil, with an empty error text; otherwise the error's message.
    The state it reports was read before the ping.  Pool statistics are
    reported only for a resource that is itself an adapter providing them:
    for whatever [Build] returns with at least one decorator selected there
    are none, whatever the adapter underneath provides. *)
Theorem checkHealth_reports {W : Type} (clock : W -> Z) (dispatch : Storage -> Methods W)
    (provider : positive -> option (W -> Stats)) (ctx : Context) (s : Storage) (w : W) :
  let '(err, w') := Ping (dispatch s) ctx w in
  let '(status, w'') := checkHealth clock dispatch provider ctx s w in
  w'' = w' /\
  (hs_Healthy status = true <-> err = None) /\
  (hs_Healthy status = true -> hs_Error status = "") /\
  (forall e, err = Some e -> hs_Error status = Error e) /\
  hs_State status = State_String (State_ (dispatch s) w) /\
  hs_Latency status = clock w' - clock w /\
  (is_decorator s = true -> hs_Stats status = None) /\
  (forall b, s = Build b -> selected b <> [] -> hs_Stats status = None) /\
  (forall a n t stats, s = Concrete a n t -> provider a = Some stats ->
     hs_Stats status = Some (stats w')).
Proof.
  unfold checkHealth. destruct (Ping (dispatch s) ctx w) as [err w']. simpl.
  assert (Hdec : is_decorator s = true -> as_StatsProvider provider s = None).
  { destruct s; simpl; [discriminate|reflexivity..]. }
  repeat split.
  - by destruct err.
  - by intros ->.
  - by destruct err.
  - by intros e ->.
  - intros H. by rewrite (Hdec H).
  - intros b -> Hsel. by rewrite (Hdec (Build_decorated b Hsel)).
  - intros a n t stats -> Hp. simpl. by rewrite Hp.
Qed.



(** ** The adapters through their lifecycle *)

Ltac life_unfold :=
  cbv [apply_op run fst snd
       lc_Connect lc_Ping lc_Close lc_handle lc_adapter lc_Cfg
       redis_lifecycle mongodb_lifecycle clickhouse_lifecycle elasticsearch_lifecycle
       mysql_lifecycle
       redis_Ping redis_Close mongodb_Ping mongodb_Close clickhouse_Ping clickhouse_Close
       elasticsearch_Ping elasticsearch_Close mysql_Ping mysql_Close has clear];
  conn_unfold.

Lemma in_step_cases (field : string) (n : string) (t : Kind) (st : State)
    (f : gmap string Handle) :
  in_step field {| base := {| name := n; typ := t; state := st |}; fields := f |} ->
  (st = StateConnected /\ is_Some (f !! field)) \/
  (st = StateDisconnected /\ f !! field = None).
Proof.
  unfold in_step. simpl. intros [Hiff [->| ->]].
  - left. split; [reflexivity|]. by apply Hiff.
  - right. split; [reflexivity|]. destruct (f !! field) eqn:Hf; [|reflexivity].
    assert (H : StateDisconnected = StateConnected) by (apply Hiff; eauto). discriminate.
Qed.

Ltac in_step_solve :=
  unfold in_step; simpl; rewrite ?lookup_insert_eq, ?lookup_delete_eq;
  repeat (rewrite lookup_insert_ne by discriminate);
  repeat (rewrite lookup_delete_ne by discriminate);
  rewrite ?lookup_insert_eq, ?lookup_delete_eq;
  first [ split; [split; [reflexivity | eauto] | left; reflexivity]
        | split; [split; [intros [? ?]; discriminate | discriminate] | right; reflexivity] ].

Ltac life_local :=
  let cfg := fresh "cfg" in
  let n := fresh "n" in
  let t := fresh "t" in
  let st := fresh "st" in
  let f := fresh "f" in
  let Hc := fresh "Hc" in
  let Hf := fresh "Hf" in
  let h := fresh "h" in
  intros cfg [[n t st] f] Hc;
  destruct (in_step_cases _ _ _ _ _ Hc) as [[-> [h Hf]]|[-> Hf]]; simpl in Hf;
  (split; [|split; [|split]]);
  [ intros [[| |] env]
  | intros env Hne; try done
  | intros env Heq; try done
  | intros env env'
  | intros [[| |] env]
  | intros env Hne; try done
  | intros env Heq; try done
  | intros env env' ];
  life_unfold; simpl; rewrite ?Hf; simpl;
  repeat (conn_step; simpl);
  rewrite ?lookup_insert_eq, ?lookup_delete_eq;
  repeat (rewrite lookup_insert_ne by discriminate);
  repeat (rewrite lookup_delete_ne by discriminate);
  rewrite ?lookup_insert_eq, ?lookup_delete_eq, ?Hf;
  try in_step_solve; try exact Hc; try reflexivity;
  try (eexists _, _; split; [reflexivity | discriminate]);
  try (repeat split; eauto).

Lemma redis_in_step : in_step_locally redis_lifecycle.
Proof. life_local. Qed.

Lemma mongodb_in_step : in_step_locally mongodb_lifecycle.
Proof. life_local. Qed.

Lemma clickhouse_in_step : in_step_locally clickhouse_lifecycle.
Proof. life_local. Qed.

Lemma elasticsearch_in_step : in_step_locally elasticsearch_lifecycle.
Proof. life_local. Qed.

Lemma New_client_in_step (field n : string) (t : Kind) : in_step field (New_client n t).
Proof.
  unfold in_step, New_client. simpl. rewrite lookup_empty. split; [|by right].
  split; [intros [? ?]; discriminate | discriminate].
Qed.

Lemma in_step_globally (L : Lifecycle) : in_step_locally L -> stays_in_step L.
Proof.
  intros Hloc cfg n t steps.
  assert (Hinv : forall c, in_step (lc_handle L) c ->
                           in_step (lc_handle L) (after_ops L cfg steps c)).
  { induction steps as [|step steps IH]; intros c Hc; [exact Hc|].
    simpl. apply IH. by apply (Hloc cfg c Hc). }
  specialize (Hinv _ (New_client_in_step (lc_handle L) n t)).
  intros c. fold c in Hinv. destruct (Hloc cfg c Hinv) as (_ & Hp1 & Hp2 & Hcl).
  split; [exact Hinv|]. split; [exact Hp1|]. split; [exact Hp2|exact Hcl].
Qed.

(** X13.  For the redis, mongodb, clickhouse and elasticsearch adapters,
    after any sequence of [Connect], [Ping] and [Close] calls on a new
    adapter, whatever the driver answered: the adapter holds a driver handle
    exactly when its state is Connected; [Ping] answers "not connected"
    without calling the driver when it is not, and calls the driver when it
    is; and [Close] leaves it Disconnected without a handle also when the
    driver's close fails, so that the next [Connect] passes the state
    check. *)
Theorem handle_and_state_stay_in_step :
  Forall stays_in_step
    [redis_lifecycle; mongodb_lifecycle; clickhouse_lifecycle; elasticsearch_lifecycle].
Proof.
  repeat apply List.Forall_cons; [..|apply List.Forall_nil]; apply in_step_globally.
  - exact redis_in_step.
  - exact mongodb_in_step.
  - exact clickhouse_in_step.
  - exact elasticsearch_in_step.
Qed.

(** X14.  The mysql adapter can fall out of step: when [db.DB()] fails
    inside [Close] of a connected adapter, [Close] returns that error with
    the state at Disconnected and the handle still in place, and a [Ping]
    after it goes to the driver instead of answering "not connected". *)
Theorem mysql_Close_keeps_handle_on_DB_error (env env' : IOEnv) (e : error)
    (n : string) (t : Kind) (h : Handle) (f : gmap string Handle) :
  env "db.DB" = Some e ->
  f !! "db" = Some h ->
  let c := {| base := {| name := n; typ := t; state := StateConnected |}; fields := f |} in
  let '(res, c', tr) := run (mysql_Close env) c in
  res = Some e /\
  state (base c') = StateDisconnected /\
  fields c' !! "db" = Some h /\
  ~ in_step "db" c' /\
  exists tr', snd (run (mysql_Ping env') c') = EvIO "db.DB" (env' "db.DB") :: tr'.
Proof.
  intros He Hf c. unfold c. life_unfold. simpl. rewrite Hf, He. simpl.
  repeat split; try assumption.
  - intros [Hiff _]. simpl in Hiff.
    assert (H : StateDisconnected = StateConnected) by (apply Hiff; eauto). discriminate.
  - rewrite Hf. simpl. destruct (env' "db.DB"); simpl; eauto.
Qed.

(** A connected adapter whose pool handle cannot be obtained any more. *)
Lemma mysql_Close_keeps_handle_on_DB_error_witness :
  exists res c' tr,
    run (mysql_Close db_gone) connected_mysql = (res, c', tr) /\
    res = Some (errorString "sql: database is closed") /\
    state (base c') = StateDisconnected /\
    fields c' !! "db" = Some "gorm.Open".
Proof.
  pose proof (mysql_Close_keeps_handle_on_DB_error db_gone db_gone
                (errorString "sql: database is closed") "mysql" "mysql" "gorm.Open"
                {["db" := "gorm.Open"]} eq_refl (lookup_singleton_eq _ _)) as H.
  destruct H as (H1 & H2 & H3 & _).
  eexists _, _, _. split; [reflexivity|].
  split; [exact H1|]. split; [exact H2|exact H3].
Defined.

(** What [Connect] of every adapter keeps to, for use in what follows. *)
Lemma adapters_keep_contract : Forall connect_contract adapters.
Proof.
  unfold adapters. repeat apply List.Forall_cons; [..|apply List.Forall_nil].
  all: conn_contract.
Qed.

Lemma contract_twice (A : Adapter) : connect_contract A -> reconnects_only_after_failure A.
Proof.
  intros HA cfg cfg' env env' c Hc.
  pose proof (HA cfg env c) as H1.
  destruct (run (Connect_of A cfg env) c) as [[res c1] tr].
  destruct H1 as (_ & _ & Hok & _ & Hfail).
  pose proof (HA cfg' env' c1) as H2.
  destruct (run (Connect_of A cfg' env') c1) as [[res' c2] tr'].
  destruct H2 as ((swapped & rest & Htr & Hsw & _) & Hrej & _).
  destruct res as [e|].
  - destruct (Hfail Hc) as [_ Hd]; [discriminate|].
    exists rest. rewrite Htr, Hsw, Hd. by rewrite bool_decide_eq_true_2.
  - destruct (Hok eq_refl) as [_ Hconn]. apply Hrej. rewrite Hconn. discriminate.
Qed.

(** X15.  For each of the eight adapters, two [Connect] calls in a row on a
    disconnected adapter: when the first succeeded, the second returns the
    invalid-state error without calling the driver and without changing the
    adapter; when the first failed, the second passes the state check and
    goes on to the driver, so that a failed [Connect] can always be
    retried. *)
Theorem Connect_again_after_Connect : Forall reconnects_only_after_failure adapters.
Proof.
  eapply List.Forall_impl; [|exact adapters_keep_contract].
  exact contract_twice.
Qed.

(** ** [redis.Storage.Stats] and the statement logger of mysql *)

(** X16.  For a connected redis adapter whose driver reports no more idle
    than total connections, [Stats] answers figures that add up: the
    connections in use and the idle ones are the open ones.  When the two
    counters were read apart and idle exceeds total, the difference wraps
    around and in-use exceeds the number of open connections.  Without a
    client every figure is zero. *)
Theorem redis_Stats_add_up (counter_bits PoolSize : Z) (stats : PoolStats) :
  0 < counter_bits ->
  counter counter_bits (TotalConns stats) ->
  counter counter_bits (IdleConns stats) ->
  let s := redis_Stats counter_bits PoolSize (Some stats) in
  (IdleConns stats <= TotalConns stats ->
     InUse s + Idle s = OpenConnections s /\ 0 <= InUse s <= OpenConnections s) /\
  (TotalConns stats < IdleConns stats ->
     InUse s = TotalConns stats - IdleConns stats + 2 ^ counter_bits /\
     OpenConnections s < InUse s) /\
  OpenConnections (redis_Stats counter_bits PoolSize None) = 0 /\
  InUse (redis_Stats counter_bits PoolSize None) = 0.
Proof.
  unfold counter. intros Hbits Ht Hi. unfold redis_Stats, counter_sub. simpl.
  assert (Hpow : 0 < 2 ^ counter_bits) by (apply Z.pow_pos_nonneg; lia).
  split; [|split; [|split; reflexivity]].
  - intros Hle. rewrite Z.mod_small by lia. lia.
  - intros Hlt.
    rewrite <- (Z.mod_add _ 1) by lia. rewrite Z.mod_small by lia. lia.
Qed.

(** Ten connections of which three idle, and the counters read apart. *)
Lemma redis_Stats_add_up_witness :
  InUse (redis_Stats 32 10 (Some {| Timeouts := 0; TotalConns := 10; IdleConns := 3 |})) = 7 /\
  InUse (redis_Stats 32 10 (Some {| Timeouts := 0; TotalConns := 3; IdleConns := 4 |}))
    = 4294967295.
Proof.
  destruct (redis_Stats_add_up 32 10 {| Timeouts := 0; TotalConns := 10; IdleConns := 3 |})
    as (H1 & _); [lia|unfold counter; simpl; lia..|].
  destruct (redis_Stats_add_up 32 10 {| Timeouts := 0; TotalConns := 3; IdleConns := 4 |})
    as (_ & H2 & _); [lia|unfold counter; simpl; lia..|].
  split.
  - destruct H1 as [H1 _]; [simpl; lia|]. simpl in H1. simpl. lia.
  - destruct H2 as [H2 _]; [simpl; lia|]. exact H2.
Defined.

(** X17.  [Trace] writes at most one record per statement.  At level Silent
    or below it writes none, failures included.  Above it, a failed statement
    is always and only reported as "sql error"; a successful one is reported
    as "slow sql" exactly when it took longer than a positive threshold and
    the level is at least Warn, and otherwise as "sql" exactly when the level
    is at least Info.  The threshold [New] installs is positive. *)
Theorem Trace_writes_one_record (logLevel slowThreshold elapsed : Z) (err : option error) :
  let log := slowQueryLogger_Trace logLevel slowThreshold elapsed err in
  (List.length log <= 1)%nat /\
  (logLevel <= Silent -> log = []) /\
  (Silent < logLevel -> forall e, err = Some e -> log = [LogError "sql error"]) /\
  (Silent < logLevel -> err = None ->
     (log = [LogWarn "slow sql"] <->
        slowThreshold < elapsed /\ 0 < slowThreshold /\ LevelWarn <= logLevel) /\
     (log = [LogInfo "sql"] <->
        ~ (slowThreshold < elapsed /\ 0 < slowThreshold) /\ LevelInfo <= logLevel)) /\
  (forall configured, 0 < mysql_SlowThreshold configured).
Proof.
  unfold slowQueryLogger_Trace, mysql_SlowThreshold, Silent, LevelError, LevelWarn, LevelInfo.
  cbv zeta. split; [|split; [|split; [|split]]].
  - repeat case_match; simpl; lia.
  - intros H. destruct (Z.leb_spec logLevel 1); [reflexivity|lia].
  - intros H e ->. destruct (Z.leb_spec logLevel 1); [lia|]. simpl.
    destruct (Z.leb_spec 2 logLevel); [reflexivity|lia].
  - intros H ->. destruct (Z.leb_spec logLevel 1); [lia|]. simpl.
    destruct (Z.ltb_spec slowThreshold elapsed), (Z.ltb_spec 0 slowThreshold),
      (Z.leb_spec 3 logLevel), (Z.leb_spec 4 logLevel); simpl;
      (split; split; intros; try discriminate; try lia; try reflexivity).
  - intros configured. destruct (Z.leb_spec configured 0); lia.
Qed.

(** ** [Reconnectable.Ping], and [Reconnectable] around an adapter *)

(** X18.  Below the largest [int] of [MaxRetries], a [Reconnectable.Ping]
    that returns has pinged the wrapped resource at most twice, closed it at
    most once and made at most [MaxRetries + 1] connect attempts; when a ping
    was its last call it returns that ping's answer as it is, a connection
    error included (it does not reconnect a second time), and it returns nil
    only after a ping that returned nil. *)
Theorem Ping_work_bounded {W : Type} (scale : Z -> float -> Z)
    (unicode_ToLower : string -> string) (inner : Methods W) (cfg : ReconnectConfig)
    (fuel : nat) (ctx : Context) (w w' : W) (res : option error) (tr : list Call) :
  MaxRetries cfg < int_max ->
  Reconnectable_Ping scale unicode_ToLower inner cfg fuel ctx w = Some (res, w', tr) ->
  (pings tr <= 2)%nat /\
  (closes tr <= 1)%nat /\
  (attempts tr <= Z.to_nat (MaxRetries cfg + 1))%nat /\
  (forall r, last tr = Some (CallPing r) -> res = r) /\
  (res = None -> last tr = Some (CallPing None)).
Proof.
  intros Hmax H. unfold Reconnectable_Ping in H.
  destruct (Ping inner ctx w) as [err w1].
  destruct (isConnectionError unicode_ToLower err).
  - destruct (Close inner ctx w1) as [cerr w2].
    destruct (connectWithRetry scale inner cfg fuel ctx w2) as [[[[re|] w3] tr0]|] eqn:Hc;
      [| |discriminate].
    + injection H as <- <- <-.
      pose proof (retry_loop_calls _ _ _ _ _ _ _ _ _ _ _ _ _ Hc) as [Hp Hcl].
      unfold connectWithRetry in Hc.
      apply (retry_loop_run scale inner cfg ctx fuel Hmax) in Hc as (Hs & Hr & Hb);
        [|left; auto|reflexivity|lia].
      unfold pings, closes, attempts in *. simpl in *.
      repeat split; try lia.
      * intros r Hlast. exfalso.
        assert (Hl : last tr0 = Some (CallPing r)).
        { destruct tr0 as [|x tr0]; [discriminate|]. exact Hlast. }
        clear -Hs Hl. unfold retry_shaped in Hs.
        destruct tr0 as [|x tr0] using rev_ind; [discriminate|].
        rewrite last_snoc in Hl. injection Hl as ->.
        rewrite phase_after_snoc in Hs.
        destruct (phase_after AtStart tr0) as [[]|]; discriminate.
      * discriminate.
    + destruct (Ping inner ctx w3) as [err' w4]. injection H as <- <- <-.
      pose proof (retry_loop_calls _ _ _ _ _ _ _ _ _ _ _ _ _ Hc) as [Hp Hcl].
      unfold connectWithRetry in Hc.
      apply (retry_loop_run scale inner cfg ctx fuel Hmax) in Hc as (Hs & Hr & Hb);
        [|left; auto|reflexivity|lia].
      assert (Hlast : last (CallPing err :: CallClose cerr :: tr0 ++ [CallPing err'])
                      = Some (CallPing err')).
      { change (last ([CallPing err; CallClose cerr] ++ tr0 ++ [CallPing err'])
                = Some (CallPing err')).
        by rewrite !app_assoc, last_snoc. }
      rewrite Hlast.
      unfold pings, closes, attempts in *. simpl in *.
      rewrite !List.filter_app, !length_app. simpl.
      repeat split; try lia.
      * intros r Hr'. congruence.
      * intros ->. reflexivity.
  - injection H as <- <- <-. unfold pings, closes, attempts. simpl.
    repeat split; try lia.
    + intros r Hr. congruence.
    + intros ->. reflexivity.
Qed.

(** The test double answering a connection error to every ping: one close,
    one successful connect, a second ping whose error is returned. *)
Lemma Ping_work_bounded_witness :
  exists res w' tr,
    Reconnectable_Ping double id mock (test_config 2) 4 Background
      {| mock_Base := NewBase "mock" "unknown"; connectErr := None;
         pingErr := Some (errorString "EOF"); connectCount := 0 |} = Some (res, w', tr) /\
    res = Some (errorString "EOF") /\
    (pings tr <= 2)%nat /\ (closes tr <= 1)%nat /\ (attempts tr <= 3)%nat.
Proof.
  set (w0 := {| mock_Base := NewBase "mock" "unknown"; connectErr := None;
                pingErr := Some (errorString "EOF"); connectCount := 0 |}).
  destruct (Reconnectable_Ping double id mock (test_config 2) 4 Background w0)
    as [[[res w'] tr]|] eqn:H.
  - exists res, w', tr. split; [reflexivity|].
    destruct (Ping_work_bounded double id mock (test_config 2) 4 Background w0 w' res tr)
      as (Hp & Hc & Ha & _); [|exact H|].
    + unfold int_max, int_bits. simpl. lia.
    + split; [|auto]. vm_compute in H. by injection H as <- _ _.
  - vm_compute in H. discriminate H.
Defined.

Section Rejected.

Context {W : Type}.
Variable scale : Z -> float -> Z.
Variable inner : Methods W.
Variable cfg : ReconnectConfig.
Variable ctx : Context.

Variable w0 : W.
Variable e0 : error.

(** While the wrapped [Connect] answers the same error and leaves the
    resource as it was, [j] more iterations take the loop from attempt [a]
    to attempt [a + j], one wait before each attempt but the first. *)
Lemma retry_loop_rejected (j : nat) :
  Connect inner ctx w0 = (Some e0, w0) ->
  forall a interval lastErr tr fuel,
    0 <= a -> a + Z.of_nat j <= MaxRetries cfg + 1 -> a + Z.of_nat j <= int_max ->
    (forall i, Done_before ctx i = false) ->
    exists interval' tr',
      retry_loop scale inner cfg (j + fuel) ctx a interval lastErr w0 tr =
        retry_loop scale inner cfg fuel ctx (a + Z.of_nat j) interval'
          (if j is O then lastErr else Some e0) w0 (tr ++ tr') /\
      attempts tr' = j /\
      (0 < a -> List.length (waits tr') = j) /\
      (a = 0 -> List.length (waits tr') = Nat.pred j).
Proof.
  intros Hrej. induction j as [|j IH]; intros a interval lastErr tr fuel Ha Hn Hmax Hctx.
  - exists interval, []. rewrite Z.add_0_r, app_nil_r. repeat split.
  - simpl retry_loop.
    assert (Hle : (a <=? MaxRetries cfg) = true) by (apply Z.leb_le; lia).
    rewrite Hle, Hctx, andb_false_r, Hrej.
    rewrite (wrap_int_id (a + 1)) by (unfold is_int, int_min, int_bits; simpl; lia).
    destruct (Z.ltb_spec 0 a) as [Hpos|Hzero].
    + destruct (IH (a + 1)
                  (if MaxInterval cfg <? scale interval (Multiplier cfg)
                   then MaxInterval cfg else scale interval (Multiplier cfg))
                  (Some e0) ((tr ++ [Sleep interval]) ++ [CallConnect (Some e0)])%list fuel)
        as (interval' & tr' & Heq & Hatt & Hw & _); try lia; try done.
      exists interval', (Sleep interval :: CallConnect (Some e0) :: tr')%list.
      rewrite Heq. replace (a + 1 + Z.of_nat j) with (a + Z.of_nat (S j)) by lia.
      repeat split.
      * f_equal; [by destruct j|]. rewrite <- !app_assoc. reflexivity.
      * unfold attempts in *. simpl. by rewrite Hatt.
      * intros _. simpl. rewrite Hw by lia. reflexivity.
      * lia.
    + destruct (IH (a + 1) interval (Some e0) (tr ++ [CallConnect (Some e0)])%list fuel)
        as (interval' & tr' & Heq & Hatt & Hw & _); try lia; try done.
      exists interval', (CallConnect (Some e0) :: tr')%list.
      rewrite Heq. replace (a + 1 + Z.of_nat j) with (a + Z.of_nat (S j)) by lia.
      repeat split.
      * f_equal; [by destruct j|]. rewrite <- !app_assoc. reflexivity.
      * unfold attempts in *. simpl. by rewrite Hatt.
      * lia.
      * intros _. simpl. rewrite Hw by lia. reflexivity.
Qed.

End Rejected.

(** An adapter that is not Disconnected answers [Connect] with its
    invalid-state error and stays as it is. *)
Lemma lifecycles_reject :
  Forall (fun L => forall (cfg : lc_Cfg L) (env : IOEnv) (c : Client),
            state (base c) <> StateDisconnected ->
            fst (run (lc_Connect L cfg env) c) =
              (Some (errorString (lc_adapter L ++ ": invalid state for connect")), c))
         lifecycles.
Proof.
  repeat constructor; intros cfg env [[n t st] f] Hst; simpl in *;
    (destruct st; [congruence|reflexivity..]).
Qed.

(** X19.  [Reconnectable.Connect] around a storage adapter that is not
    Disconnected (connected already, say) does not return at once: with
    [0 <= MaxRetries] below the largest [int] and a context that stays open
    it asks the adapter [MaxRetries + 1] times, waits [MaxRetries] times in
    between, and only then returns the adapter's invalid-state error, wrapped;
    the adapter is left as it was. *)
Theorem Connect_retries_invalid_state : Forall retries_invalid_state lifecycles.
Proof.
  apply (Forall_impl _ _ _ lifecycles_reject).
  intros L Hrej scale cfg env r_config ctx c fuel Hst Hn Hctx Hfuel.
  set (n := Z.to_nat (MaxRetries r_config + 1)).
  destruct (retry_loop_rejected scale (adapter_methods L cfg env) r_config ctx c
              (errorString (lc_adapter L ++ ": invalid state for connect")) n
              (Hrej cfg env c Hst) 0 (InitialInterval r_config) None []
              (fuel - n)%nat) as (interval' & tr' & Heq & Hatt & _ & Hw);
    [lia|lia|lia|done|].
  replace (n + (fuel - n))%nat with fuel in Heq by lia.
  exists (Errorf_w ("connect failed after " ++ itoa (wrap_int (MaxRetries r_config + 1))
                      ++ " attempts: ")
            (Some (errorString (lc_adapter L ++ ": invalid state for connect")))), tr'.
  split; [|split; [|split]].
  - unfold Reconnectable_Connect, connectWithRetry. rewrite Heq.
    destruct (fuel - n)%nat as [|k] eqn:Hk; [lia|]. simpl retry_loop.
    assert (Hgt : (0 + Z.of_nat n <=? MaxRetries r_config) = false)
      by (apply Z.leb_gt; lia).
    rewrite Hgt. destruct n eqn:Hn0; [lia|]. reflexivity.
  - exact Hatt.
  - rewrite Hw by reflexivity. lia.
  - apply Errorf_w_wraps.
Qed.

